(** * hndshake backend: rate limiter, identity digest, validation,
      pagination, migration runner and start-up configuration.

    A shallow embedding of the Go backend (package [main]) together with the
    properties its specification states about it.  Go strings are byte
    sequences and are modelled by [string] (a list of 8-bit [ascii]); Go
    [int] values are modelled by [Z]; maps (the process environment, HTTP
    headers) by [gmap]. *)

From Stdlib Require Import ZArith Ascii String List Permutation.
From stdpp Require Import base decidable list gmap strings sorting.

Local Open Scope Z_scope.

(* ===================================================================== *)
(** * Go standard-library string functions used by the backend *)
(* ===================================================================== *)

Module GoStrings.

(** [len(s)] as a Go [int]. *)
Definition len (s : string) : Z := Z.of_nat (String.length s).

Fixpoint has_prefix (p s : string) : bool :=
  match p, s with
  | EmptyString, _ => true
  | String a p', String b s' => if Ascii.eqb a b then has_prefix p' s' else false
  | String _ _, EmptyString => false
  end.

(** [strings.HasSuffix(s, suffix)]:
    [len(s) >= len(suffix) && s[len(s)-len(suffix):] == suffix]. *)
Definition HasSuffix (s suffix : string) : bool :=
  let n := String.length s in
  let m := String.length suffix in
  (m <=? n)%nat && String.eqb (substring (n - m) m s) suffix.

(** [strings.TrimSuffix(s, suffix)]: [s] without the trailing [suffix], or
    [s] itself when it does not end in [suffix]. *)
Definition TrimSuffix (s suffix : string) : string :=
  if HasSuffix s suffix
  then substring 0 (String.length s - String.length suffix) s
  else s.

(** [strings.LastIndex(s, substr)]: byte index of the last occurrence of
    [substr] in [s], or [-1]. *)
Fixpoint LastIndex (s substr : string) : Z :=
  match s with
  | EmptyString => if String.eqb substr "" then 0 else -1
  | String _ s' =>
      let i := LastIndex s' substr in
      if 0 <=? i then i + 1
      else if has_prefix substr s then 0 else -1
  end.

(** The slice [s[:i]]. *)
Definition slice_to (s : string) (i : Z) : string :=
  substring 0 (Z.to_nat i) s.

(** [strings.Split(s, sep)] for a one-byte separator: the pieces of [s]
    between occurrences of [sep]; never the empty slice. *)
Fixpoint Split_go (cur : string) (s : string) (sep : ascii) : list string :=
  match s with
  | EmptyString => [String.rev cur]
  | String a s' =>
      if Ascii.eqb a sep
      then String.rev cur :: Split_go "" s' sep
      else Split_go (String a cur) s' sep
  end.
Definition Split (s : string) (sep : ascii) : list string := Split_go "" s sep.

(** White space in the sense of [unicode.IsSpace], as the UTF-8 byte
    sequences that encode it: the six ASCII ones, U+0085, U+00A0, U+1680,
    U+2000..U+200A, U+2028, U+2029, U+202F, U+205F and U+3000. *)
Definition ascii_space (c : ascii) : bool :=
  match c with
  | "009" | "010" | "011" | "012" | "013" | " " => true
  | _ => false
  end%char.

Definition space2 (a b : ascii) : bool :=
  let x := N_of_ascii a in let y := N_of_ascii b in
  (N.eqb x 0xC2 && (N.eqb y 0x85 || N.eqb y 0xA0))%N.

Definition space3 (a b c : ascii) : bool :=
  let x := N_of_ascii a in let y := N_of_ascii b in let z := N_of_ascii c in
  (   (N.eqb x 0xE1 && N.eqb y 0x9A && N.eqb z 0x80)
   || (N.eqb x 0xE2 && N.eqb y 0x80 &&
         ((N.leb 0x80 z && N.leb z 0x8A) || N.eqb z 0xA8 || N.eqb z 0xA9 || N.eqb z 0xAF))
   || (N.eqb x 0xE2 && N.eqb y 0x81 && N.eqb z 0x9F)
   || (N.eqb x 0xE3 && N.eqb y 0x80 && N.eqb z 0x80))%N.

(** [strings.TrimLeftFunc(s, unicode.IsSpace)] on the bytes of [s]. *)
Fixpoint TrimLeftSpace (s : string) : string :=
  match s with
  | EmptyString => EmptyString
  | String a r1 =>
      if ascii_space a then TrimLeftSpace r1
      else match r1 with
           | EmptyString => s
           | String b r2 =>
               if space2 a b then TrimLeftSpace r2
               else match r2 with
                    | EmptyString => s
                    | String c r3 => if space3 a b c then TrimLeftSpace r3 else s
                    end
           end
  end.

(** [strings.TrimRightFunc(s, unicode.IsSpace)], walking the reversed
    bytes: a multi-byte space is met last byte first. *)
Fixpoint TrimLeftSpace_rev (s : string) : string :=
  match s with
  | EmptyString => EmptyString
  | String a r1 =>
      if ascii_space a then TrimLeftSpace_rev r1
      else match r1 with
           | EmptyString => s
           | String b r2 =>
               if space2 b a then TrimLeftSpace_rev r2
               else match r2 with
                    | EmptyString => s
                    | String c r3 => if space3 c b a then TrimLeftSpace_rev r3 else s
                    end
           end
  end.
Definition TrimRightSpace (s : string) : string :=
  String.rev (TrimLeftSpace_rev (String.rev s)).

(** [strings.TrimSpace(s)]: leading, then trailing white space removed. *)
Definition TrimSpace (s : string) : string := TrimRightSpace (TrimLeftSpace s).

(** Value of a decimal digit byte. *)
Definition digit (c : ascii) : option Z :=
  let n := Z.of_N (N_of_ascii c) in
  if (48 <=? n) && (n <=? 57) then Some (n - 48) else None.

Fixpoint digits (acc : Z) (s : string) : option Z :=
  match s with
  | EmptyString => Some acc
  | String c s' =>
      match digit c with
      | Some d => digits (acc * 10 + d) s'
      | None => None
      end
  end.

Definition min_int : Z := - 2 ^ 63.
Definition max_int : Z := 2 ^ 63 - 1.

(** [strconv.Atoi(s)] on a 64-bit platform: an optional sign, then one or
    more decimal digits, the value within the range of [int]; [None] stands
    for the syntax or range error. *)
Definition Atoi (s : string) : option Z :=
  let '(neg, body) :=
    match s with
    | String "-"%char r => (true, r)
    | String "+"%char r => (false, r)
    | _ => (false, s)
    end in
  match body with
  | EmptyString => None
  | _ =>
      match digits 0 body with
      | Some n =>
          let v := if neg then - n else n in
          if (min_int <=? v) && (v <=? max_int) then Some v else None
      | None => None
      end
  end.

Definition digit_char (d : Z) : ascii := ascii_of_N (Z.to_N (48 + d)).

Fixpoint utoa (fuel : nat) (n : Z) (acc : string) : string :=
  match fuel with
  | O => acc
  | S fuel' =>
      let acc' := String (digit_char (n mod 10)) acc in
      if n <? 10 then acc' else utoa fuel' (n / 10) acc'
  end.

(** The [%d] verb of [fmt.Sprintf] (and [strconv.Itoa]). *)
Definition Itoa (n : Z) : string :=
  if n <? 0 then String "-"%char (utoa (S (Z.to_nat (Z.log2 (- n)))) (- n) "")
  else utoa (S (Z.to_nat (Z.log2 n))) n "".

End GoStrings.

(* ===================================================================== *)
(** * SHA-256 (crypto/sha256) and hexadecimal encoding (encoding/hex) *)
(* ===================================================================== *)

Module Sha256.

Definition w32 (x : Z) : Z := Z.land x 0xffffffff.
Definition add32 (x y : Z) : Z := w32 (x + y).
Definition rotr (n x : Z) : Z :=
  Z.lor (Z.shiftr x n) (w32 (Z.shiftl x (32 - n))).
Definition shr (n x : Z) : Z := Z.shiftr x n.
Definition not32 (x : Z) : Z := Z.lxor x 0xffffffff.

Definition Ch (x y z : Z) : Z := Z.lxor (Z.land x y) (Z.land (not32 x) z).
Definition Maj (x y z : Z) : Z :=
  Z.lxor (Z.lxor (Z.land x y) (Z.land x z)) (Z.land y z).
Definition bsig0 (x : Z) : Z := Z.lxor (Z.lxor (rotr 2 x) (rotr 13 x)) (rotr 22 x).
Definition bsig1 (x : Z) : Z := Z.lxor (Z.lxor (rotr 6 x) (rotr 11 x)) (rotr 25 x).
Definition ssig0 (x : Z) : Z := Z.lxor (Z.lxor (rotr 7 x) (rotr 18 x)) (shr 3 x).
Definition ssig1 (x : Z) : Z := Z.lxor (Z.lxor (rotr 17 x) (rotr 19 x)) (shr 10 x).

(** The first 64 primes. *)
Definition is_prime (n : Z) : bool :=
  forallb (λ d, negb (n mod d =? 0)) (map Z.of_nat (seq 2 (Z.to_nat n - 2))).

Definition primes64 : list Z :=
  Eval vm_compute in filter (λ n, is_prime n = true) (map Z.of_nat (seq 2 310)).

(** The integer cube root, found bit by bit from bit 40 down. *)
Definition cube_root (n : Z) : Z :=
  fold_left (λ r b, let r' := r + 2 ^ b in if r' * r' * r' <=? n then r' else r)
            (map Z.of_nat (rev (seq 0 41))) 0.

(** The round constants: the first 32 bits of the fractional parts of the
    cube roots of the first 64 primes (FIPS 180-4, section 4.2.2). *)
Definition K : list Z :=
  Eval vm_compute in map (λ p, cube_root (p * 2 ^ 96) mod 2 ^ 32) primes64.

(** The eight working variables / chaining values. *)
Record digest_state := DS { h0 : Z; h1 : Z; h2 : Z; h3 : Z; h4 : Z; h5 : Z; h6 : Z; h7 : Z }.

(** The initial hash value: the first 32 bits of the fractional parts of
    the square roots of the first 8 primes (FIPS 180-4, section 5.3.3). *)
Definition init : digest_state :=
  Eval vm_compute in
    let h (i : nat) := Z.sqrt (nth i primes64 0 * 2 ^ 64) mod 2 ^ 32 in
    DS (h 0%nat) (h 1%nat) (h 2%nat) (h 3%nat) (h 4%nat) (h 5%nat) (h 6%nat) (h 7%nat).

(** Message schedule, kept most recent word first while it grows. *)
Fixpoint extend (n : nat) (ws : list Z) : list Z :=
  match n with
  | O => ws
  | S n' =>
      let w := add32 (add32 (add32 (ssig1 (nth 1 ws 0)) (nth 6 ws 0))
                            (ssig0 (nth 14 ws 0))) (nth 15 ws 0) in
      extend n' (w :: ws)
  end.
Definition schedule (block : list Z) : list Z := rev (extend 48 (rev block)).

Definition round (s : digest_state) (kw : Z * Z) : digest_state :=
  let '(DS a b c d e f g h) := s in
  let t1 := add32 (add32 (add32 (add32 h (bsig1 e)) (Ch e f g)) (fst kw)) (snd kw) in
  let t2 := add32 (bsig0 a) (Maj a b c) in
  DS (add32 t1 t2) a b c (add32 d t1) e f g.

Definition compress (s : digest_state) (block : list Z) : digest_state :=
  let '(DS a b c d e f g h) := fold_left round (combine K (schedule block)) s in
  DS (add32 (h0 s) a) (add32 (h1 s) b) (add32 (h2 s) c) (add32 (h3 s) d)
     (add32 (h4 s) e) (add32 (h5 s) f) (add32 (h6 s) g) (add32 (h7 s) h).

(** Big-endian packing of bytes into 32-bit words. *)
Fixpoint words (n : nat) (bs : list Z) : list Z :=
  match n with
  | O => []
  | S n' =>
      match bs with
      | b0 :: b1 :: b2 :: b3 :: rest =>
          (Z.shiftl b0 24 + Z.shiftl b1 16 + Z.shiftl b2 8 + b3) :: words n' rest
      | _ => []
      end
  end.

Fixpoint blocks (n : nat) (bs : list Z) : list (list Z) :=
  match n with
  | O => []
  | S n' => words 16 (firstn 64 bs) :: blocks n' (skipn 64 bs)
  end.

Definition be_bytes (k : nat) (x : Z) : list Z :=
  map (fun i => Z.land (Z.shiftr x (8 * Z.of_nat i)) 0xff) (rev (seq 0 k)).

(** Padding: a 1 bit, zeros, and the bit length as a 64-bit big-endian
    integer, up to a multiple of 64 bytes. *)
Definition pad (msg : list Z) : list Z :=
  let l := Z.of_nat (length msg) in
  msg ++ [0x80] ++ repeat 0 (Z.to_nat ((55 - l) mod 64)) ++ be_bytes 8 (8 * l).

Definition bytes_of_string (s : string) : list Z :=
  map (fun c => Z.of_N (N_of_ascii c)) (list_ascii_of_string s).

Definition byte_of_Z (b : Z) : ascii := ascii_of_N (Z.to_N b).

(** [sha256.Sum256]: the 32-byte digest. *)
Definition Sum256 (msg : string) : list ascii :=
  let p := pad (bytes_of_string msg) in
  let '(DS a b c d e f g h) := fold_left compress (blocks (length p / 64) p) init in
  map byte_of_Z
    (be_bytes 4 a ++ be_bytes 4 b ++ be_bytes 4 c ++ be_bytes 4 d ++
     be_bytes 4 e ++ be_bytes 4 f ++ be_bytes 4 g ++ be_bytes 4 h).

Definition hex_digit (n : N) : ascii :=
  if (n <? 10)%N then ascii_of_N (48 + n) else ascii_of_N (87 + n).

(** [hex.EncodeToString]: two lower-case hexadecimal digits per byte. *)
Fixpoint EncodeToString (bs : list ascii) : string :=
  match bs with
  | [] => EmptyString
  | b :: bs' =>
      let n := N_of_ascii b in
      String (hex_digit (n / 16)) (String (hex_digit (n mod 16)) (EncodeToString bs'))
  end.

End Sha256.

(* ===================================================================== *)
(** * The backend (package main) *)
(* ===================================================================== *)

(** ** models.go.  The handlers and the store read the exact [Age] (an
    [int]), the column that migration 002_age_to_integer introduces. *)

Module CreatePostRequest.
Record t := Make {
  EventName : string;
  Content : string;
  Age : Z;
  Gender : string;
  Location : string
}.
End CreatePostRequest.

Module Post.
Record t := Make {
  ID : Z;
  EventName : string;
  Content : string;
  Age : Z;
  Gender : string;
  Location : string;
  CreatedAt : Z
}.
End Post.

(** ** The world the process runs in *)

(** A row of table [posts]: the post and the identity digest of its author.
    Timestamps are microseconds, the resolution of the store. *)
Record PostRow := { row_post : Post.t; ip_hash : string }.

Definition minute : Z := 60000000.

(** The persistent store: table [posts], table [schema_migrations] (its
    versions, oldest first) and the [SERIAL] sequence of [posts.id]. *)
Record Store := {
  posts : list PostRow;
  schema_migrations : list string;
  next_id : Z
}.

(** An entry of the [migrations/] directory; [contents] is [None] for a file
    that cannot be read. *)
Record DirEntry := { Name : string; IsDir : bool; contents : option string }.

(** Effects the process performs, oldest first in [trace]. *)
Inductive Event :=
  | EvLog (msg : string)
  | EvReadFile (filename : string)
  | EvExec (version sql : string)
  | EvConnect (databaseURL : string).

(** [faults] decides the outcome of the coming calls to the store, one entry
    per call, [true] for a call that returns an error (a rejected statement,
    a lost connection); calls beyond the list succeed.  [clock] is the
    store's [NOW()]. *)
Record World := {
  store : Store;
  clock : Z;
  faults : list bool;
  environ : gmap string string;
  dotenv_file : option (gmap string string);
  migrations_dir : option (list DirEntry);
  trace : list Event
}.

Definition with_store (w : World) (s : Store) : World :=
  {| store := s; clock := clock w; faults := faults w; environ := environ w;
     dotenv_file := dotenv_file w; migrations_dir := migrations_dir w;
     trace := trace w |}.

Definition with_faults (w : World) (fs : list bool) : World :=
  {| store := store w; clock := clock w; faults := fs; environ := environ w;
     dotenv_file := dotenv_file w; migrations_dir := migrations_dir w;
     trace := trace w |}.

Definition with_environ (w : World) (e : gmap string string) : World :=
  {| store := store w; clock := clock w; faults := faults w; environ := e;
     dotenv_file := dotenv_file w; migrations_dir := migrations_dir w;
     trace := trace w |}.

Definition with_clock (w : World) (t : Z) : World :=
  {| store := store w; clock := t; faults := faults w; environ := environ w;
     dotenv_file := dotenv_file w; migrations_dir := migrations_dir w;
     trace := trace w |}.

Definition emit (e : Event) (w : World) : World :=
  {| store := store w; clock := clock w; faults := faults w; environ := environ w;
     dotenv_file := dotenv_file w; migrations_dir := migrations_dir w;
     trace := trace w ++ [e] |}.

(** The outcome scheduled for the next call to the store. *)
Definition pop_fault (w : World) : bool * World :=
  match faults w with
  | [] => (false, w)
  | failed :: fs => (failed, with_faults w fs)
  end.

(** One call to the store: [None] when the call fails, otherwise the
    operation runs. *)
Definition db_call {A} (op : World → A * World) (w : World) : option A * World :=
  let '(failed, w0) := pop_fault w in
  if (failed : bool) then (None, w0)
  else let '(a, w') := op w0 in (Some a, w').

(** ** database.go *)

(** The rows counted by
    [SELECT COUNT( * ) FROM posts WHERE ip_hash = $1
       AND created_at > NOW() - INTERVAL '1 minute' * $2]. *)
Definition in_window (ipHash : string) (windowMinutes now : Z) (r : PostRow) : bool :=
  String.eqb (ip_hash r) ipHash
  && (now - minute * windowMinutes <? Post.CreatedAt (row_post r)).

Definition post_count (ipHash : string) (windowMinutes : Z) (w : World) : Z :=
  Z.of_nat (length (filter (λ r, in_window ipHash windowMinutes (clock w) r = true)
                           (posts (store w)))).

Definition GetPostCountByIPInWindow (ipHash : string) (windowMinutes : Z)
    (w : World) : option Z * World :=
  db_call (λ w, (post_count ipHash windowMinutes w, w)) w.

(** [INSERT INTO posts (...) VALUES ($1, ..., $6) RETURNING ...]: the row
    takes the next [id] and the current timestamp; the six parameters are
    stored as they are passed. *)
Definition insert_post (req : CreatePostRequest.t) (ipHash : string)
    (w : World) : Post.t * World :=
  let s := store w in
  let post := Post.Make (next_id s) (CreatePostRequest.EventName req)
                (CreatePostRequest.Content req) (CreatePostRequest.Age req)
                (CreatePostRequest.Gender req) (CreatePostRequest.Location req)
                (clock w) in
  (post, with_store w {| posts := posts s ++ [{| row_post := post; ip_hash := ipHash |}];
                         schema_migrations := schema_migrations s;
                         next_id := next_id s + 1 |}).

Definition DB_CreatePost (req : CreatePostRequest.t) (ipHash : string)
    (w : World) : option Post.t * World :=
  db_call (insert_post req ipHash) w.

Definition newer_first (a b : Post.t) : Prop := Post.CreatedAt b ≤ Post.CreatedAt a.

Global Instance newer_first_dec : RelDecision newer_first.
Proof. intros a b. unfold newer_first. apply _. Defined.

(** [SELECT ... FROM posts [WHERE event_name = $1] ORDER BY created_at DESC
    LIMIT limit OFFSET offset].  Rows of equal [created_at], whose order the
    query leaves open, are kept here in the order of insertion; no
    property stated below depends on that choice. *)
Definition select_posts (eventFilter : string) (limit offset : Z) (w : World) : list Post.t :=
  let all := map row_post (posts (store w)) in
  let matching :=
    if String.eqb eventFilter "" then all
    else filter (λ p, Post.EventName p = eventFilter) all in
  take (Z.to_nat limit) (drop (Z.to_nat offset) (merge_sort newer_first matching)).

Definition DB_GetPosts (eventFilter : string) (limit offset : Z)
    (w : World) : option (list Post.t) * World :=
  db_call (λ w, (select_posts eventFilter limit offset w, w)) w.

(** ** middleware.go: requests, responses and the identity digest *)

Record Request := {
  Method : string;
  Path : string;
  Header : gmap string (list string);
  Query : gmap string (list string);
  RemoteAddr : string;
  (** the body as [json.Decode] reads it into a [CreatePostRequest];
      [None] when decoding fails *)
  Body : option CreatePostRequest.t;
  Context : gmap string string
}.

Definition WithValue (r : Request) (key value : string) : Request :=
  {| Method := Method r; Path := Path r; Header := Header r; Query := Query r;
     RemoteAddr := RemoteAddr r; Body := Body r;
     Context := <[key := value]> (Context r) |}.

(** [Header.Get] and [url.Values.Get]: the first value of the key, or [""].
    Header names are in their canonical form, as the server stores them. *)
Definition Get (m : gmap string (list string)) (key : string) : string :=
  match m !! key with
  | Some (v :: _) => v
  | _ => ""
  end.

Inductive Payload :=
  | JsonError (message : string)        (* {"error": message} *)
  | JsonPost (p : Post.t)
  | JsonPosts (ps : list Post.t)
  | JsonEvents (es : list string)
  | Raw (text : string).

Record Response := { Status : Z; ContentType : string; Payload_ : Payload }.

Definition Handler := Request → World → Response * World.

Definition StatusOK : Z := 200.
Definition StatusCreated : Z := 201.
Definition StatusBadRequest : Z := 400.
Definition StatusNotFound : Z := 404.
Definition StatusMethodNotAllowed : Z := 405.
Definition StatusTooManyRequests : Z := 429.
Definition StatusInternalServerError : Z := 500.

Definition newline : string := String (ascii_of_N 10) "".

(** [http.Error] replies in plain text, the message on a line. *)
Definition http_Error (message : string) (code : Z) : Response :=
  {| Status := code; ContentType := "text/plain; charset=utf-8";
     Payload_ := Raw (message +:+ newline) |}.

Definition respondWithJSON (status : Z) (payload : Payload) : Response :=
  {| Status := status; ContentType := "application/json"; Payload_ := payload |}.

Definition respondWithError (status : Z) (message : string) : Response :=
  respondWithJSON status (JsonError message).

Definition getIP (r : Request) : string :=
  let forwarded := Get (Header r) "X-Forwarded-For" in
  if negb (String.eqb forwarded "") then
    let ips := GoStrings.Split forwarded ","%char in
    GoStrings.TrimSpace (hd "" ips)
  else
    let realIP := Get (Header r) "X-Real-IP" in
    if negb (String.eqb realIP "") then realIP
    else
      let ip := RemoteAddr r in
      let colonIndex := GoStrings.LastIndex ip ":" in
      if negb (colonIndex =? -1) then GoStrings.slice_to ip colonIndex else ip.

Definition salt : string := "living-timeline-salt".

Definition hashIP (ip : string) : string :=
  Sha256.EncodeToString (Sha256.Sum256 (ip +:+ salt)).

Definition ipHashKey : string := "ipHash".

Definition IPHashFromContext (ctx : gmap string string) : string :=
  match ctx !! ipHashKey with
  | Some ipHash => ipHash
  | None => ""
  end.

Record RateLimiter := { requestLimit : Z; windowMinutes : Z }.

Definition NewRateLimiter (requestLimit windowMinutes : Z) : RateLimiter :=
  {| requestLimit := requestLimit; windowMinutes := windowMinutes |}.

(** The body of the 429 reply,
    [{"error":"Rate limit exceeded. Maximum %d posts per %d minutes."}]. *)
Definition rate_limit_message (rl : RateLimiter) : string :=
  "{" +:+ String (ascii_of_N 34) "error" +:+ String (ascii_of_N 34) ":"
  +:+ String (ascii_of_N 34) "Rate limit exceeded. Maximum "
  +:+ GoStrings.Itoa (requestLimit rl) +:+ " posts per "
  +:+ GoStrings.Itoa (windowMinutes rl) +:+ " minutes."
  +:+ String (ascii_of_N 34) "}".

Definition rate_limit_response (rl : RateLimiter) : Response :=
  {| Status := StatusTooManyRequests; ContentType := "application/json";
     Payload_ := Raw (rate_limit_message rl) |}.

Definition Limit (rl : RateLimiter) (next : Handler) : Handler :=
  λ r w,
    (* Only rate limit POST requests *)
    if negb (String.eqb (Method r) "POST") then next r w
    else
      let ip := getIP r in
      let ipHash := hashIP ip in
      match GetPostCountByIPInWindow ipHash (windowMinutes rl) w with
      | (None, w1) => (http_Error "Internal server error" StatusInternalServerError, w1)
      | (Some count, w1) =>
          if requestLimit rl <=? count then (rate_limit_response rl, w1)
          else next (WithValue r ipHashKey ipHash) w1
      end.

(** ** handlers.go *)

(** [None] is the [nil] error, [Some message] a [ValidationError]. *)
Definition validateCreatePostRequest (req : CreatePostRequest.t) : option string :=
  let EventName := GoStrings.TrimSpace (CreatePostRequest.EventName req) in
  let Content := GoStrings.TrimSpace (CreatePostRequest.Content req) in
  let Location := GoStrings.TrimSpace (CreatePostRequest.Location req) in
  let Age := CreatePostRequest.Age req in
  let Gender := CreatePostRequest.Gender req in
  if String.eqb EventName "" then Some "event_name is required"
  else if 200 <? GoStrings.len EventName then Some "event_name must be 200 characters or less"
  else if String.eqb Content "" then Some "content is required"
  else if 5000 <? GoStrings.len Content then Some "content must be 5000 characters or less"
  (* Age must be between 1 and 120 *)
  else if (Age <? 1) || (120 <? Age) then Some "age must be between 1 and 120"
  else if String.eqb Location "" then Some "location is required"
  else if 200 <? GoStrings.len Location then Some "location must be 200 characters or less"
  (* Gender is optional, but validate if provided *)
  else if negb (String.eqb Gender "") && (20 <? GoStrings.len Gender)
       then Some "gender must be 20 characters or less"
  else None.

Definition computeIPHash (r : Request) : string :=
  let ip := RemoteAddr r in
  let colonIndex := GoStrings.LastIndex ip ":" in
  hashIP (if negb (colonIndex =? -1) then GoStrings.slice_to ip colonIndex else ip).

(** CreatePost handles POST /api/posts *)
Definition CreatePost : Handler :=
  λ r w,
    match Body r with
    | None => (respondWithError StatusBadRequest "Invalid request body", w)
    | Some req =>
        match validateCreatePostRequest req with
        | Some err => (respondWithError StatusBadRequest err, w)
        | None =>
            (* Get IP hash from context (set by rate limiter) *)
            let ipHash := IPHashFromContext (Context r) in
            let ipHash := if String.eqb ipHash "" then computeIPHash r else ipHash in
            match DB_CreatePost req ipHash w with
            | (None, w1) =>
                (respondWithError StatusInternalServerError "Failed to create post",
                 emit (EvLog "Error creating post") w1)
            | (Some post, w1) => (respondWithJSON StatusCreated (JsonPost post), w1)
            end
        end
    end.

Definition parseLimit (limitStr : string) : Z :=
  let limit := 50 in (* default *)
  if negb (String.eqb limitStr "") then
    match GoStrings.Atoi limitStr with
    | Some parsedLimit =>
        if (0 <? parsedLimit) && (parsedLimit <=? 100) then parsedLimit else limit
    | None => limit
    end
  else limit.

Definition parseOffset (offsetStr : string) : Z :=
  let offset := 0 in (* default *)
  if negb (String.eqb offsetStr "") then
    match GoStrings.Atoi offsetStr with
    | Some parsedOffset => if 0 <=? parsedOffset then parsedOffset else offset
    | None => offset
    end
  else offset.

(** GetPosts handles GET /api/posts *)
Definition GetPosts : Handler :=
  λ r w,
    let eventFilter := Get (Query r) "event" in
    let limit := parseLimit (Get (Query r) "limit") in
    let offset := parseOffset (Get (Query r) "offset") in
    match DB_GetPosts eventFilter limit offset w with
    | (None, w1) =>
        (respondWithError StatusInternalServerError "Failed to retrieve posts",
         emit (EvLog "Error getting posts") w1)
    | (Some posts, w1) => (respondWithJSON StatusOK (JsonPosts posts), w1)
    end.

(** [SELECT event_name FROM posts GROUP BY event_name
     ORDER BY MAX(created_at) DESC]. *)
Definition select_events (w : World) : list string :=
  let names := map Post.EventName (merge_sort newer_first (map row_post (posts (store w)))) in
  reverse (remove_dups (reverse names)).

Definition DB_GetEvents (w : World) : option (list string) * World :=
  db_call (λ w, (select_events w, w)) w.

(** GetEvents handles GET /api/events *)
Definition GetEvents : Handler :=
  λ r w,
    match DB_GetEvents w with
    | (None, w1) =>
        (respondWithError StatusInternalServerError "Failed to retrieve events",
         emit (EvLog "Error getting events") w1)
    | (Some events, w1) => (respondWithJSON StatusOK (JsonEvents events), w1)
    end.

(** ** main.go: the router *)

Definition plain (status : Z) (text : string) : Response :=
  {| Status := status; ContentType := ""; Payload_ := Raw text |}.

Definition mux : Handler :=
  λ r w,
    if String.eqb (Path r) "/api/posts" then
      if String.eqb (Method r) "GET" then GetPosts r w
      else if String.eqb (Method r) "POST" then CreatePost r w
      else if String.eqb (Method r) "OPTIONS" then (plain StatusOK "", w)
      else (http_Error "Method not allowed" StatusMethodNotAllowed, w)
    else if String.eqb (Path r) "/api/events" then
      if String.eqb (Method r) "GET" then GetEvents r w
      else if String.eqb (Method r) "OPTIONS" then (plain StatusOK "", w)
      else (http_Error "Method not allowed" StatusMethodNotAllowed, w)
    else if String.eqb (Path r) "/health" then (plain StatusOK "OK", w)
    else (http_Error "404 page not found" StatusNotFound, w).

(** Requests served one after the other, each at its own instant. *)
Fixpoint serve (h : Handler) (rs : list (Z * Request)) (w : World) : list Response * World :=
  match rs with
  | [] => ([], w)
  | (t, r) :: rs' =>
      let '(resp, w1) := h r (with_clock w t) in
      let '(resps, w2) := serve h rs' w1 in
      (resp :: resps, w2)
  end.

(** ** Start-up code: a state monad with fatal exit ([log.Fatal]) *)

Inductive Result (A : Type) :=
  | Done (a : A)
  | Fatal (msg : string).
Arguments Done {A} a.
Arguments Fatal {A} msg.

Definition Proc (A : Type) : Type := World → Result A * World.

Global Instance proc_ret : MRet Proc := λ A a w, (Done a, w).

Global Instance proc_bind : MBind Proc :=
  λ A B k m w,
    match m w with
    | (Done a, w') => k a w'
    | (Fatal msg, w') => (Fatal msg, w')
    end.

(** [log.Fatal] and [log.Fatalf]: the message is logged and the process
    exits.  The text of the wrapped error is left out of the message. *)
Definition log_Fatal {A} (msg : string) : Proc A :=
  λ w, (Fatal msg, emit (EvLog msg) w).

Definition log_Println (msg : string) : Proc unit :=
  λ w, (Done tt, emit (EvLog msg) w).

(** A call to the store whose error is fatal with the given message. *)
Definition must {A} (call : World → option A * World) (msg : string) : Proc A :=
  λ w, match call w with
       | (Some a, w') => (Done a, w')
       | (None, w') => log_Fatal msg w'
       end.

(** ** database.go: the migration runner *)

(** [SELECT EXISTS(SELECT 1 FROM schema_migrations WHERE version = $1)]. *)
Definition version_exists (version : string) (w : World) : option bool * World :=
  db_call (λ w, (bool_decide (version ∈ schema_migrations (store w)), w)) w.

(** [db.conn.Exec(sql)] of a migration script.  What a script does to the
    tables of the application is not followed; a script does not write to
    [schema_migrations]. *)
Definition exec_script (version sql : string) (w : World) : option unit * World :=
  db_call (λ w, (tt, emit (EvExec version sql) w)) w.

(** [INSERT INTO schema_migrations (version) VALUES ($1)]; [version] is the
    primary key, so a version already present is refused. *)
Definition record_version (version : string) (w : World) : option unit * World :=
  if bool_decide (version ∈ schema_migrations (store w))
  then (None, snd (pop_fault w))
  else db_call (λ w, (tt, with_store w
                   {| posts := posts (store w);
                      schema_migrations := schema_migrations (store w) ++ [version];
                      next_id := next_id (store w) |})) w.

(** [CREATE TABLE IF NOT EXISTS schema_migrations (...)]: a table that is
    absent is the empty table. *)
Definition create_tracking_table (w : World) : option unit * World :=
  db_call (λ w, (tt, w)) w.

Definition entry_le (a b : DirEntry) : Prop := String.le (Name a) (Name b).

Global Instance entry_le_dec : RelDecision entry_le.
Proof. intros a b. unfold entry_le. apply _. Defined.

(** [os.ReadDir]: all the entries of the directory, sorted by filename. *)
Definition ReadDir (w : World) : option (list DirEntry) * World :=
  (merge_sort entry_le <$> migrations_dir w, w).

(** [os.ReadFile("migrations/" + filename)]. *)
Definition ReadFile (filename : string) (w : World) : option string * World :=
  let found :=
    match migrations_dir w with
    | Some entries =>
        match find (λ e, String.eqb (Name e) filename) entries with
        | Some e => if IsDir e then None else contents e
        | None => None
        end
    | None => None
    end in
  (found, emit (EvReadFile filename) w).

Definition version_of (filename : string) : string :=
  GoStrings.TrimSuffix filename ".sql".

(** The files kept by the first loop of [runMigrations]. *)
Definition sql_files (migrationFiles : list DirEntry) : list string :=
  map Name (filter (λ file, negb (IsDir file) && GoStrings.HasSuffix (Name file) ".sql" = true)
                   migrationFiles).

(** The second loop of [runMigrations]. *)
Fixpoint apply_migrations (sortedFiles : list string) : Proc unit :=
  match sortedFiles with
  | [] => mret tt
  | filename :: rest =>
      (* Extract version from filename (e.g., "001_init.sql" -> "001_init") *)
      let version := version_of filename in
      (* Check if migration has been applied *)
      exists_ ← must (version_exists version)
                     ("Failed to check migration status for " +:+ version);
      if (exists_ : bool) then
        log_Println ("Migration " +:+ version +:+ " already applied, skipping");;
        apply_migrations rest
      else
        (* Read migration file *)
        sqlBytes ← must (ReadFile filename)
                        ("Failed to read migration file " +:+ filename);
        (* Run the migration *)
        log_Println ("Applying migration: " +:+ version);;
        must (exec_script version sqlBytes) ("Failed to run migration " +:+ version);;
        (* Record the migration *)
        must (record_version version) ("Failed to record migration " +:+ version);;
        log_Println ("Migration " +:+ version +:+ " completed successfully");;
        apply_migrations rest
  end.

(** runMigrations executes all pending database migrations in order. *)
Definition runMigrations : Proc unit :=
  must create_tracking_table "Failed to create schema_migrations table";;
  migrationFiles ← must ReadDir "Failed to read migrations directory";
  let sortedFiles := sql_files migrationFiles in
  apply_migrations sortedFiles;;
  log_Println "All migrations completed successfully".

(** ** main.go: configuration *)

(** [os.Getenv]: the value, [""] when the variable is not set. *)
Definition Getenv (key : string) (w : World) : string :=
  default "" (environ w !! key).

Definition getEnv (key defaultValue : string) (w : World) : string :=
  let value := Getenv key w in
  if negb (String.eqb value "") then value else defaultValue.

Definition getEnvInt (key : string) (defaultValue : Z) (w : World) : Z :=
  let value := Getenv key w in
  if negb (String.eqb value "") then
    match GoStrings.Atoi value with
    | Some intValue => intValue
    | None => defaultValue
    end
  else defaultValue.

(** [godotenv.Load()]: the variables of file [.env] are added to the
    environment, those already set keep their value; an error when the file
    cannot be read. *)
Definition godotenv_Load (w : World) : option unit * World :=
  match dotenv_file w with
  | Some vars => (Some tt, with_environ w (environ w ∪ vars))
  | None => (None, w)
  end.

(** [NewDB]: open the pool and ping the store. *)
Definition NewDB (databaseURL : string) (w : World) : option unit * World :=
  db_call (λ w, (tt, emit (EvLog "Successfully connected to database") w))
          (emit (EvConnect databaseURL) w).

Record Config := {
  databaseURL : string;
  port : string;
  allowedOrigins : string;
  rateLimitRequests : Z;
  rateLimitWindowMinutes : Z
}.

(** [main], up to the point where the handlers are built: the configuration
    it read and the rate limiter built from it. *)
Definition read_config : Proc Config :=
  λ w,
    let databaseURL := getEnv "DATABASE_URL" "" w in
    if String.eqb databaseURL "" then
      log_Fatal "DATABASE_URL environment variable is required" w
    else
      let port := getEnv "PORT" "8080" w in
      let allowedOrigins := getEnv "ALLOWED_ORIGINS" "http://localhost:3000" w in
      let rateLimitRequests := getEnvInt "RATE_LIMIT_REQUESTS" 5 w in
      let rateLimitWindowMinutes := getEnvInt "RATE_LIMIT_WINDOW_MINUTES" 60 w in
      (Done {| databaseURL := databaseURL; port := port;
               allowedOrigins := allowedOrigins;
               rateLimitRequests := rateLimitRequests;
               rateLimitWindowMinutes := rateLimitWindowMinutes |}, w).

Definition main_startup : Proc (Config * RateLimiter) :=
  (* Get configuration from environment *)
  must godotenv_Load "Error loading .env file";;
  cfg ← read_config;
  (* Connect to database *)
  must (NewDB (databaseURL cfg)) "Failed to connect to database";;
  (* Initialize rate limiter *)
  mret (cfg, NewRateLimiter (rateLimitRequests cfg) (rateLimitWindowMinutes cfg)).

(** ** Notions the properties are stated with *)

(** Versions of the scripts executed, and the files read, in a trace. *)
Definition executed_versions (tr : list Event) : list string :=
  omap (λ e, match e with EvExec version _ => Some version | _ => None end) tr.

Definition read_files (tr : list Event) : list string :=
  omap (λ e, match e with EvReadFile filename => Some filename | _ => None end) tr.

Definition connections (tr : list Event) : list string :=
  omap (λ e, match e with EvConnect url => Some url | _ => None end) tr.

(** The files the runner has to apply, in order, given the versions already
    recorded and the files it walks through. *)
Fixpoint pending (recorded : list string) (files : list string) : list string :=
  match files with
  | [] => []
  | filename :: rest =>
      let version := version_of filename in
      if bool_decide (version ∈ recorded) then pending recorded rest
      else filename :: pending (recorded ++ [version]) rest
  end.

Definition with_store_versions (w : World) (versions : list string) : World :=
  with_store w {| posts := posts (store w); schema_migrations := versions;
                  next_id := next_id (store w) |}.

(** The environment [main] reads once file [.env] is loaded. *)
Definition effective_environ (w : World) : gmap string string :=
  match dotenv_file w with
  | Some vars => environ w ∪ vars
  | None => environ w
  end.

(** A setting is absent when it is not set or set to the empty string. *)
Definition absent (env : gmap string string) (key : string) : Prop :=
  default "" (env !! key) = "".

(** Clamping in the words of the specification: the nearest value of the
    interval [(0,100]], and of [[0, +oo)]. *)
Definition clamp_limit (n : Z) : Z := Z.max 1 (Z.min 100 n).
Definition clamp_offset (n : Z) : Z := Z.max 0 n.

Definition dquote : string := String (ascii_of_N 34) "".

(** ** Sample data *)

Definition empty_store : Store :=
  {| posts := []; schema_migrations := []; next_id := 1 |}.

Definition sample_dir : list DirEntry :=
  [ {| Name := "002_age_to_integer.sql"; IsDir := false; contents := Some "ALTER TABLE posts" |};
    {| Name := "README.md"; IsDir := false; contents := Some "# Database Migrations" |};
    {| Name := "001_init.sql"; IsDir := false; contents := Some "CREATE TABLE posts" |};
    {| Name := "archive.sql"; IsDir := true; contents := None |} ].

Definition sample_world : World :=
  {| store := empty_store; clock := 0; faults := [];
     environ := {[ "DATABASE_URL" := "postgres://localhost/hndshake" ]};
     dotenv_file := Some ∅;
     migrations_dir := Some sample_dir; trace := [] |}.

Definition sample_request (forwarded content : string) : Request :=
  {| Method := "POST"; Path := "/api/posts";
     Header := {[ "X-Forwarded-For" := [forwarded] ]};
     Query := ∅; RemoteAddr := "10.0.0.1:5555";
     Body := Some (CreatePostRequest.Make "Reunion" content 30 "" "Chicago");
     Context := ∅ |}.

(** Seven posts from one address: one at instant 0, then one per minute
    from minute 57 to minute 62. *)
Definition sample_traffic : list (Z * Request) :=
  (0, sample_request "203.0.113.7" "first")
  :: map (λ m, (m * minute, sample_request "203.0.113.7" "again")) [57; 58; 59; 60; 61; 62].

(** [n] times the letter a. *)
Definition letters (n : Z) : string :=
  string_of_list_ascii (repeat "a"%char (Z.to_nat n)).

Definition sample_post (content : string) (age : Z) : CreatePostRequest.t :=
  CreatePostRequest.Make "Reunion" content age "" "Chicago".

(** The checks of [validateCreatePostRequest] on the fields other than
    [age] and [content]. *)
Definition other_fields_valid (req : CreatePostRequest.t) : Prop :=
  GoStrings.TrimSpace (CreatePostRequest.EventName req) ≠ ""
  ∧ GoStrings.len (GoStrings.TrimSpace (CreatePostRequest.EventName req)) ≤ 200
  ∧ GoStrings.TrimSpace (CreatePostRequest.Location req) ≠ ""
  ∧ GoStrings.len (GoStrings.TrimSpace (CreatePostRequest.Location req)) ≤ 200
  ∧ (CreatePostRequest.Gender req = "" ∨ GoStrings.len (CreatePostRequest.Gender req) ≤ 20).

(** The digest [CreatePost] stores with the post. *)
Definition stored_ipHash (r : Request) : string :=
  let ipHash := IPHashFromContext (Context r) in
  if String.eqb ipHash "" then computeIPHash r else ipHash.

(** The files [runMigrations] walks through: the entries of the directory
    as [os.ReadDir] returns them, directories and other suffixes left out. *)
Definition discovered (w : World) : list string :=
  match migrations_dir w with
  | Some entries => sql_files (merge_sort entry_le entries)
  | None => []
  end.


(** The part of [s] before the first occurrence of [sep]. *)
Fixpoint before (sep : ascii) (s : string) : string :=
  match s with
  | EmptyString => EmptyString
  | String a s' => if Ascii.eqb a sep then EmptyString else String a (before sep s')
  end.

(** The byte [c] occurs in [s]. *)
Definition occurs (c : ascii) (s : string) : Prop := In c (list_ascii_of_string s).

(** Decoding of lower-case hexadecimal text, the inverse of
    [hex.EncodeToString]. *)
Definition unhex (c : ascii) : N :=
  let n := N_of_ascii c in if (n <? 58)%N then (n - 48)%N else (n - 87)%N.

Fixpoint DecodeString (s : string) : list ascii :=
  match s with
  | String c1 (String c2 s') => ascii_of_N (16 * unhex c1 + unhex c2) :: DecodeString s'
  | _ => []
  end.

(** The world after the first six posts of [sample_traffic], at minute 62. *)
Definition busy_world : World :=
  with_clock (snd (serve (Limit (NewRateLimiter 5 60) mux) (take 6 sample_traffic)
                     sample_world))
             (62 * minute).

(** The number of characters of a UTF-8 text: its bytes other than
    continuation bytes ([utf8.RuneCountInString] on valid UTF-8). *)
Definition rune_count (s : string) : Z :=
  Z.of_nat (length (filter (λ c, N.land (N_of_ascii c) 0xC0 ≠ 0x80%N)
                           (list_ascii_of_string s))).

(** [n] times the two-byte letter e with acute accent (bytes C3 A9). *)
Definition accented (n : Z) : string :=
  String.concat "" (repeat (String (ascii_of_N 0xC3) (String (ascii_of_N 0xA9) ""))
                           (Z.to_nat n)).

(** ** main.go: the middleware chain *)

Definition parseOrigins (originsStr : string) : list string :=
  map GoStrings.TrimSpace (GoStrings.Split originsStr ","%char).

(** LoggingMiddleware logs all requests.  The elapsed time that ends the
    second line is left out. *)
Definition LoggingMiddleware {A} (next : Request → World → A * World)
    : Request → World → A * World :=
  λ r w,
    let '(a, w') := next r (emit (EvLog (Method r +:+ " " +:+ Path r)) w) in
    (a, emit (EvLog (Method r +:+ " " +:+ Path r +:+ " - ")) w').

(** The four headers CORSMiddleware sets for an allowed origin. *)
Definition cors_headers (origin : string) : gmap string string :=
  {[ "Access-Control-Allow-Origin" := origin;
     "Access-Control-Allow-Methods" := "GET, POST, OPTIONS";
     "Access-Control-Allow-Headers" := "Accept, Authorization, Content-Type";
     "Access-Control-Max-Age" := "300" ]}.

(** CORSMiddleware adds CORS headers: the reply is the headers it set and
    the response of the handler it wraps (of its own for OPTIONS). *)
Definition CORSMiddleware (next : Handler) (allowedOrigins : list string)
    : Request → World → (gmap string string * Response) * World :=
  λ r w,
    let origin := Get (Header r) "Origin" in
    (* Check if origin is allowed *)
    let allowed :=
      existsb (λ allowedOrigin,
                 String.eqb origin allowedOrigin || String.eqb allowedOrigin "*")
              allowedOrigins in
    (* Allow null origin (for file:// protocol during development) *)
    let '(allowed, origin) :=
      if String.eqb origin "null" || String.eqb origin "" then (true, "*")
      else (allowed, origin) in
    let headers := if (allowed : bool) then cors_headers origin else ∅ in
    if String.eqb (Method r) "OPTIONS" then ((headers, plain StatusOK ""), w)
    else let '(resp, w') := next r w in ((headers, resp), w').

(** The handler [main] serves: logging around CORS around the rate limiter
    around the router. *)
Definition app (cfg : Config) (rl : RateLimiter)
    : Request → World → (gmap string string * Response) * World :=
  LoggingMiddleware (CORSMiddleware (Limit rl mux) (parseOrigins (allowedOrigins cfg))).

(** ** Further notions *)

(** Requests that arrive in the order of their instants, none before [t0]. *)
Fixpoint chronological (t0 : Z) (rs : list (Z * Request)) : Prop :=
  match rs with
  | [] => True
  | (t, _) :: rs' => t0 ≤ t ∧ chronological t rs'
  end.

(** A store whose post ids are below the sequence and pairwise distinct. *)
Definition ids_fresh (s : Store) : Prop :=
  Forall (λ row, Post.ID (row_post row) < next_id s) (posts s)
  ∧ NoDup (map (λ row, Post.ID (row_post row)) (posts s)).

(** No post of the store is dated after instant [t]. *)
Definition none_after (t : Z) (s : Store) : Prop :=
  Forall (λ row, Post.CreatedAt (row_post row) ≤ t) (posts s).

(** Every file the runner walks through can be read. *)
Definition readable (w : World) : Prop :=
  ∀ f, f ∈ discovered w → is_Some (fst (ReadFile f w)).

(** The request [r] with header [key] set to the one value [value]. *)
Definition with_header (r : Request) (key value : string) : Request :=
  {| Method := Method r; Path := Path r; Header := <[key := [value]]> (Header r);
     Query := Query r; RemoteAddr := RemoteAddr r; Body := Body r;
     Context := Context r |}.

(** The posts of the store are listed in the order of their dates. *)
Definition dated_in_order (s : Store) : Prop :=
  StronglySorted (λ a b, Post.CreatedAt (row_post a) ≤ Post.CreatedAt (row_post b))
                 (posts s).

(** No digest has more than [requestLimit] posts in the window that ends at
    the current instant. *)
Definition within_limit (rl : RateLimiter) (w : World) : Prop :=
  ∀ ipHash, post_count ipHash (windowMinutes rl) w ≤ requestLimit rl.

(** The posts a listing with event filter [eventFilter] ranges over. *)
Definition matching_posts (eventFilter : string) (w : World) : list Post.t :=
  let all := map row_post (posts (store w)) in
  if String.eqb eventFilter "" then all
  else filter (λ p, Post.EventName p = eventFilter) all.

(** A configuration, and a request that carries nothing but its method and
    path. *)
Definition sample_config : Config :=
  {| databaseURL := "postgres://localhost/hndshake"; port := "8080";
     allowedOrigins := "http://localhost:3000, https://hndshake.com";
     rateLimitRequests := 5; rateLimitWindowMinutes := 60 |}.

Definition bare_request (method path : string) : Request :=
  {| Method := method; Path := path; Header := ∅; Query := ∅;
     RemoteAddr := "10.0.0.1:5555"; Body := None; Context := ∅ |}.

(** A host where the store connection string is set in the environment and
    there is no file [.env] to load. *)
Definition no_dotenv_world : World :=
  {| store := empty_store; clock := 0; faults := [];
     environ := {[ "DATABASE_URL" := "postgres://localhost/hndshake" ]};
     dotenv_file := None;
     migrations_dir := Some sample_dir; trace := [] |}.

(* ===================================================================== *)
(** * Properties *)
(* ===================================================================== *)

(** ** The library functions on known values *)

Example Sum256_abc :
  Sha256.EncodeToString (Sha256.Sum256 "abc")
  = "ba7816bf8f01cfea414140de5dae2223b00361a396177a9cb410ff61f20015ad".
Proof. vm_compute. reflexivity. Qed.

Example Sum256_empty :
  Sha256.EncodeToString (Sha256.Sum256 "")
  = "e3b0c44298fc1c149afbf4c8996fb92427ae41e4649b934ca495991b7852b855".
Proof. vm_compute. reflexivity. Qed.

Example Sum256_two_blocks :
  Sha256.EncodeToString
    (Sha256.Sum256 "abcdbcdecdefdefgefghfghighijhijkijkljklmklmnlmnomnopnopq")
  = "248d6a61d20638b8e5c026930c3e6039a33ce45964ff2167f6ecedd419db06c1".
Proof. vm_compute. reflexivity. Qed.

Example TrimSpace_ascii :
  GoStrings.TrimSpace (String (ascii_of_N 9) " 203.0.113.7 " +:+ String (ascii_of_N 10) "")
  = "203.0.113.7".
Proof. vm_compute. reflexivity. Qed.

(** U+00A0 (bytes C2 A0) and U+2003 (bytes E2 80 83) are white space. *)
Example TrimSpace_unicode :
  GoStrings.TrimSpace
    (String (ascii_of_N 0xC2) (String (ascii_of_N 0xA0) "a b")
     +:+ String (ascii_of_N 0xE2) (String (ascii_of_N 0x80) (String (ascii_of_N 0x83) "")))
  = "a b".
Proof. vm_compute. reflexivity. Qed.

Example Atoi_samples :
  map GoStrings.Atoi ["12"; "-5"; "+7"; ""; "-"; "1_0"; " 1"; "9223372036854775808"]
  = [Some 12; Some (-5); Some 7; None; None; None; None; None].
Proof. vm_compute. reflexivity. Qed.

Example Split_sample :
  GoStrings.Split "203.0.113.7, 10.0.0.1" ","%char = ["203.0.113.7"; " 10.0.0.1"].
Proof. vm_compute. reflexivity. Qed.

Example strip_port_samples :
  map (λ addr, GoStrings.slice_to addr (GoStrings.LastIndex addr ":"))
      ["10.0.0.1:5555"; "[::1]:8080"]
  = ["10.0.0.1"; "[::1]"].
Proof. vm_compute. reflexivity. Qed.

Example version_of_samples :
  map version_of ["001_init.sql"; "002_age_to_integer.sql"; "README.md"]
  = ["001_init"; "002_age_to_integer"; "README.md"].
Proof. vm_compute. reflexivity. Qed.

(** ** The store interface *)

Lemma pop_fault_frame w :
  let w0 := snd (pop_fault w) in
  store w0 = store w ∧ clock w0 = clock w ∧ environ w0 = environ w ∧
  dotenv_file w0 = dotenv_file w ∧ migrations_dir w0 = migrations_dir w ∧
  trace w0 = trace w.
Proof. unfold pop_fault. destruct (faults w); simpl; auto 10. Qed.

Lemma pop_fault_faults w :
  ∃ used, faults w = used ++ faults (snd (pop_fault w)) ∧
          (fst (pop_fault w) = false → Forall (λ b, b = false) used).
Proof.
  unfold pop_fault. destruct (faults w) as [|b fs] eqn:E; simpl.
  - exists []. split; [by rewrite E | constructor].
  - exists [b]. split; [done |]. intros ->. by repeat constructor.
Qed.

Lemma count_query_cases ipHash wm w :
  GetPostCountByIPInWindow ipHash wm w =
    (if fst (pop_fault w) then None else Some (post_count ipHash wm (snd (pop_fault w))),
     snd (pop_fault w)).
Proof.
  unfold GetPostCountByIPInWindow, db_call.
  destruct (pop_fault w) as [[] w0]; reflexivity.
Qed.

Lemma post_count_frame ipHash wm w w0 :
  store w0 = store w → clock w0 = clock w →
  post_count ipHash wm w0 = post_count ipHash wm w.
Proof. intros Hs Hc. unfold post_count. by rewrite Hs, Hc. Qed.

Lemma in_window_spec ipHash wm now row :
  in_window ipHash wm now row = true ↔
  ip_hash row = ipHash ∧ now - minute * wm < Post.CreatedAt (row_post row).
Proof.
  unfold in_window. rewrite andb_true_iff, String.eqb_eq, Z.ltb_lt. tauto.
Qed.

Lemma post_count_spec ipHash wm w :
  post_count ipHash wm w =
  Z.of_nat (length (filter (λ row, ip_hash row = ipHash ∧
                                   clock w - minute * wm < Post.CreatedAt (row_post row))
                           (posts (store w)))).
Proof.
  unfold post_count. do 2 f_equal.
  apply list_filter_iff. intros row. apply in_window_spec.
Qed.

(** ** The router never answers 429 itself *)

Lemma mux_not_429 r w : Status (fst (mux r w)) ≠ StatusTooManyRequests.
Proof.
  unfold mux, GetPosts, CreatePost, GetEvents, DB_GetPosts, DB_CreatePost, DB_GetEvents,
    db_call.
  repeat case_match; simpl; discriminate.
Qed.

(** ** The rate limiter *)

Lemma Limit_post rl next r w :
  Method r = "POST" →
  Limit rl next r w =
    match GetPostCountByIPInWindow (hashIP (getIP r)) (windowMinutes rl) w with
    | (None, w1) => (http_Error "Internal server error" StatusInternalServerError, w1)
    | (Some count, w1) =>
        if requestLimit rl <=? count then (rate_limit_response rl, w1)
        else next (WithValue r ipHashKey (hashIP (getIP r))) w1
    end.
Proof. intros HM. unfold Limit. by rewrite HM. Qed.


(** ** Decimal text: what [Itoa] writes, [Atoi] reads back *)

Section Decimal.
Import GoStrings.

Lemma digit_digit_char d : 0 ≤ d ≤ 9 → digit (digit_char d) = Some d.
Proof.
  intros Hd.
  assert (d = 0 ∨ d = 1 ∨ d = 2 ∨ d = 3 ∨ d = 4 ∨ d = 5 ∨ d = 6 ∨ d = 7 ∨ d = 8 ∨ d = 9)
    as Hcases by lia.
  repeat (destruct Hcases as [-> | Hcases]; [reflexivity |]). by subst.
Qed.

Lemma digits_utoa fuel : ∀ n acc,
  0 ≤ n < 2 ^ Z.of_nat (S fuel) →
  digits 0 (utoa (S fuel) n acc) = digits n acc.
Proof.
  induction fuel as [| fuel IH]; intros n acc Hn.
  - change (2 ^ Z.of_nat 1) with 2 in Hn.
    change (utoa 1 n acc) with
      (if n <? 10 then String (digit_char (n mod 10)) acc
       else String (digit_char (n mod 10)) acc).
    assert (Hm : n mod 10 = n) by (apply Z.mod_small; lia).
    rewrite Hm. replace (if n <? 10 then _ else _) with (String (digit_char n) acc)
      by (by destruct (n <? 10)).
    simpl digits. rewrite digit_digit_char by lia. f_equal.
  - change (utoa (S (S fuel)) n acc) with
      (if n <? 10 then String (digit_char (n mod 10)) acc
       else utoa (S fuel) (n / 10) (String (digit_char (n mod 10)) acc)).
    pose proof (Z.mod_pos_bound n 10 ltac:(lia)) as Hmod.
    destruct (Z.ltb_spec n 10) as [Hlt | Hge].
    + rewrite Z.mod_small by lia. simpl digits. rewrite digit_digit_char by lia. f_equal.
    + rewrite IH.
      * simpl digits. rewrite digit_digit_char by lia.
        f_equal. pose proof (Z.div_mod n 10 ltac:(lia)). lia.
      * split; [apply Z.div_pos; lia |].
        rewrite Nat2Z.inj_succ, Z.pow_succ_r in Hn by lia.
        apply Z.div_lt_upper_bound; lia.
Qed.

Lemma utoa_head fuel : ∀ n acc,
  ∃ d rest, 0 ≤ d ≤ 9 ∧ utoa (S fuel) n acc = String (digit_char d) rest.
Proof.
  induction fuel as [| fuel IH]; intros n acc.
  - exists (n mod 10), acc. split; [pose proof (Z.mod_pos_bound n 10); lia |].
    simpl. by destruct (n <? 10).
  - change (utoa (S (S fuel)) n acc) with
      (if n <? 10 then String (digit_char (n mod 10)) acc
       else utoa (S fuel) (n / 10) (String (digit_char (n mod 10)) acc)).
    destruct (n <? 10); [| apply IH].
    exists (n mod 10), acc. split; [pose proof (Z.mod_pos_bound n 10); lia | done].
Qed.

Lemma Atoi_unsigned c rest :
  c ≠ "-"%char → c ≠ "+"%char →
  Atoi (String c rest) =
    match digits 0 (String c rest) with
    | Some n => if (min_int <=? n) && (n <=? max_int) then Some n else None
    | None => None
    end.
Proof.
  intros Hminus Hplus.
  destruct c as [[] [] [] [] [] [] [] []]; try reflexivity; congruence.
Qed.

Lemma digit_char_unsigned d :
  0 ≤ d ≤ 9 → digit_char d ≠ "-"%char ∧ digit_char d ≠ "+"%char.
Proof.
  intros Hd.
  assert (d = 0 ∨ d = 1 ∨ d = 2 ∨ d = 3 ∨ d = 4 ∨ d = 5 ∨ d = 6 ∨ d = 7 ∨ d = 8 ∨ d = 9)
    as Hcases by lia.
  repeat (destruct Hcases as [-> | Hcases]; [by split |]). by subst.
Qed.

Lemma pow2_log2 n : 0 ≤ n → 0 ≤ n < 2 ^ Z.of_nat (S (Z.to_nat (Z.log2 n))).
Proof.
  intros Hn. split; [done |].
  rewrite Nat2Z.inj_succ, Z2Nat.id by apply Z.log2_nonneg.
  destruct (decide (n = 0)) as [-> | Hne]; [done |].
  apply Z.log2_spec. lia.
Qed.

(** Reading back what [Itoa] writes. *)
Lemma Atoi_Itoa n : min_int ≤ n ≤ max_int → Atoi (Itoa n) = Some n.
Proof.
  intros Hr. unfold Itoa.
  destruct (Z.ltb_spec n 0) as [Hneg | Hpos].
  - destruct (utoa_head (Z.to_nat (Z.log2 (- n))) (- n) "") as (d & rest & Hd & Hu).
    pose proof (digits_utoa _ (- n) "" (pow2_log2 (- n) ltac:(lia))) as Hdig.
    rewrite Hu in *. simpl digits in Hdig at 2.
    change (Atoi (String "-" (String (digit_char d) rest))) with
      (match digits 0 (String (digit_char d) rest) with
       | Some m => if (min_int <=? - m) && (- m <=? max_int) then Some (- m) else None
       | None => None
       end).
    rewrite Hdig, Z.opp_involutive.
    destruct (Z.leb_spec min_int n); [| lia].
    destruct (Z.leb_spec n max_int); [| lia]. done.
  - destruct (utoa_head (Z.to_nat (Z.log2 n)) n "") as (d & rest & Hd & Hu).
    pose proof (digits_utoa _ n "" (pow2_log2 n Hpos)) as Hdig.
    rewrite Hu in *. simpl digits in Hdig at 2.
    destruct (digit_char_unsigned d Hd) as [H1 H2].
    rewrite (Atoi_unsigned _ _ H1 H2), Hdig.
    destruct (Z.leb_spec min_int n); [| lia].
    destruct (Z.leb_spec n max_int); [| lia]. done.
Qed.

End Decimal.

Lemma serve_sample_traffic :
  let '(resps, w') := serve (Limit (NewRateLimiter 5 60) mux) sample_traffic sample_world in
  map Status resps = [201; 201; 201; 201; 201; 201; 429]
  ∧ last resps = Some (rate_limit_response (NewRateLimiter 5 60))
  ∧ Payload_ <$> last resps =
      Some (Raw ("{" +:+ dquote +:+ "error" +:+ dquote +:+ ":" +:+ dquote
                 +:+ "Rate limit exceeded. Maximum 5 posts per 60 minutes."
                 +:+ dquote +:+ "}"))
  ∧ map (λ row, Post.CreatedAt (row_post row) / minute) (posts (store w'))
    = [0; 57; 58; 59; 60; 61].
Proof. vm_compute. done. Qed.

(** The 429 reply: status, content type and a body that names the limit and
    the window in decimal. *)
Lemma rate_limit_response_names rl :
  Status (rate_limit_response rl) = 429
  ∧ ContentType (rate_limit_response rl) = "application/json"
  ∧ ∃ limitText windowText,
      Payload_ (rate_limit_response rl) =
        Raw ("{" +:+ dquote +:+ "error" +:+ dquote +:+ ":" +:+ dquote
             +:+ "Rate limit exceeded. Maximum " +:+ limitText
             +:+ " posts per " +:+ windowText +:+ " minutes."
             +:+ dquote +:+ "}")
      ∧ (GoStrings.min_int ≤ requestLimit rl ≤ GoStrings.max_int →
         GoStrings.Atoi limitText = Some (requestLimit rl))
      ∧ (GoStrings.min_int ≤ windowMinutes rl ≤ GoStrings.max_int →
         GoStrings.Atoi windowText = Some (windowMinutes rl)).
Proof.
  split; [reflexivity |]. split; [reflexivity |].
  exists (GoStrings.Itoa (requestLimit rl)), (GoStrings.Itoa (windowMinutes rl)).
  split; [reflexivity |]. split; apply Atoi_Itoa.
Qed.

(** C1. A POST request whose count query answers is rejected with status
    429, a body naming the limit and the window, and the store untouched,
    exactly when the posts of the caller's digest created strictly after
    now minus the window number at least the limit; below the limit the
    wrapped handler runs with the digest in its context.  The rejection is
    JSON: an "error" member whose text holds two decimal numbers that read
    back as the limit and the window.  With limit 5 and
    window 60, traffic of one address at minutes 0, 57, ..., 62 is admitted
    up to minute 61 (the post of minute 0 is then 61 minutes old and not
    counted) and rejected at minute 62. *)
Theorem rate_limit_gate (rl : RateLimiter) (r : Request) (w w1 : World) (count : Z) :
  Method r = "POST" →
  GetPostCountByIPInWindow (hashIP (getIP r)) (windowMinutes rl) w = (Some count, w1) →
  count = Z.of_nat (length (filter
            (λ row, ip_hash row = hashIP (getIP r) ∧
                    clock w - minute * windowMinutes rl < Post.CreatedAt (row_post row))
            (posts (store w))))
  ∧ (Status (fst (Limit rl mux r w)) = StatusTooManyRequests ↔ requestLimit rl ≤ count)
  ∧ (requestLimit rl ≤ count →
       ∀ next, Limit rl next r w = (rate_limit_response rl, w1) ∧ store w1 = store w)
  ∧ (count < requestLimit rl →
       ∀ next, Limit rl next r w = next (WithValue r ipHashKey (hashIP (getIP r))) w1)
  ∧ (requestLimit rl ≤ count →
       ∀ next,
         let resp := fst (Limit rl next r w) in
         Status resp = 429
         ∧ ContentType resp = "application/json"
         ∧ ∃ limitText windowText,
             Payload_ resp =
               Raw ("{" +:+ dquote +:+ "error" +:+ dquote +:+ ":" +:+ dquote
                    +:+ "Rate limit exceeded. Maximum " +:+ limitText
                    +:+ " posts per " +:+ windowText +:+ " minutes."
                    +:+ dquote +:+ "}")
             ∧ (GoStrings.min_int ≤ requestLimit rl ≤ GoStrings.max_int →
                GoStrings.Atoi limitText = Some (requestLimit rl))
             ∧ (GoStrings.min_int ≤ windowMinutes rl ≤ GoStrings.max_int →
                GoStrings.Atoi windowText = Some (windowMinutes rl)))
  ∧ (∀ row now, Post.CreatedAt (row_post row) ≤ now - 61 * minute →
       in_window (ip_hash row) 60 now row = false)
  ∧ (let '(resps, w') := serve (Limit (NewRateLimiter 5 60) mux) sample_traffic sample_world in
     map Status resps = [201; 201; 201; 201; 201; 201; 429]
     ∧ last resps = Some (rate_limit_response (NewRateLimiter 5 60))
     ∧ Payload_ <$> last resps =
         Some (Raw ("{" +:+ dquote +:+ "error" +:+ dquote +:+ ":" +:+ dquote
                    +:+ "Rate limit exceeded. Maximum 5 posts per 60 minutes."
                    +:+ dquote +:+ "}"))
     ∧ map (λ row, Post.CreatedAt (row_post row) / minute) (posts (store w'))
       = [0; 57; 58; 59; 60; 61]).
Proof.
  intros HM Hq.
  rewrite count_query_cases in Hq.
  destruct (pop_fault_frame w) as (Hs & Hc & _).
  destruct (fst (pop_fault w)) eqn:Hf; [discriminate |].
  injection Hq as Hcount Hw1. rewrite Hw1 in *.
  rewrite (post_count_frame _ _ w w1 Hs Hc) in Hcount.
  assert (Hlim : ∀ next, Limit rl next r w =
            if requestLimit rl <=? count then (rate_limit_response rl, w1)
            else next (WithValue r ipHashKey (hashIP (getIP r))) w1).
  { intros next. rewrite (Limit_post _ _ _ _ HM), count_query_cases, Hf, Hw1.
    rewrite (post_count_frame _ _ w w1 Hs Hc), Hcount. reflexivity. }
  split; [by rewrite <- Hcount, post_count_spec |].
  split.
  { rewrite (Hlim mux). destruct (Z.leb_spec (requestLimit rl) count) as [Hle | Hlt].
    - simpl. tauto.
    - split; [intros H; by apply mux_not_429 in H | lia]. }
  split.
  { intros Hle next. rewrite (Hlim next).
    apply Z.leb_le in Hle. by rewrite Hle. }
  split.
  { intros Hlt next. rewrite (Hlim next).
    apply Z.leb_gt in Hlt. by rewrite Hlt. }
  split.
  { intros Hle next. cbv zeta. rewrite (Hlim next).
    apply Z.leb_le in Hle. rewrite Hle. apply rate_limit_response_names. }
  split.
  { intros row now Hold. unfold in_window.
    apply andb_false_iff. right. apply Z.ltb_ge. unfold minute in *. lia. }
  exact serve_sample_traffic.
Qed.

Lemma rate_limit_gate_witness :
  let rl := NewRateLimiter 5 60 in
  let r := sample_request "203.0.113.7" "hello" in
  Method r = "POST"
  ∧ GetPostCountByIPInWindow (hashIP (getIP r)) (windowMinutes rl) busy_world
    = (Some 5, busy_world)
  ∧ Status (fst (Limit rl mux r busy_world)) = StatusTooManyRequests
  ∧ Limit rl mux r busy_world = (rate_limit_response rl, busy_world)
  ∧ ∃ limitText windowText,
      Payload_ (fst (Limit rl mux r busy_world)) =
        Raw ("{" +:+ dquote +:+ "error" +:+ dquote +:+ ":" +:+ dquote
             +:+ "Rate limit exceeded. Maximum " +:+ limitText
             +:+ " posts per " +:+ windowText +:+ " minutes."
             +:+ dquote +:+ "}")
      ∧ GoStrings.Atoi limitText = Some 5 ∧ GoStrings.Atoi windowText = Some 60.
Proof.
  intros rl r.
  assert (Hq : GetPostCountByIPInWindow (hashIP (getIP r)) (windowMinutes rl) busy_world
               = (Some 5, busy_world)) by (vm_compute; reflexivity).
  pose proof (rate_limit_gate rl r busy_world busy_world 5 eq_refl Hq)
    as (_ & Hiff & Hrej & _ & Hbody & _).
  split; [reflexivity |]. split; [exact Hq |].
  split; [apply Hiff; simpl; lia |].
  split; [apply Hrej; simpl; lia |].
  destruct (Hbody ltac:(simpl; lia) mux) as (_ & _ & limitText & windowText & Hp & Hl & Hw).
  exists limitText, windowText. split; [exact Hp |].
  split; [apply Hl | apply Hw]; vm_compute; split; discriminate.
Defined.

(** C5. When the count query of the rate limiter returns an error, a POST
    request is answered 500 "Internal server error"; the wrapped handler is
    not run, whatever it is, and the store is left as it was. *)
Theorem rate_limit_fail_closed (rl : RateLimiter) (next : Handler) (r : Request) (w w1 : World) :
  Method r = "POST" →
  GetPostCountByIPInWindow (hashIP (getIP r)) (windowMinutes rl) w = (None, w1) →
  Limit rl next r w = (http_Error "Internal server error" StatusInternalServerError, w1)
  ∧ Status (fst (Limit rl next r w)) = StatusInternalServerError
  ∧ store w1 = store w
  ∧ trace w1 = trace w.
Proof.
  intros HM Hq. rewrite (Limit_post _ _ _ _ HM), Hq.
  rewrite count_query_cases in Hq.
  destruct (pop_fault_frame w) as (Hs & _ & _ & _ & _ & Ht).
  injection Hq as _ <-. auto.
Qed.

Lemma rate_limit_fail_closed_witness :
  Status (fst (Limit (NewRateLimiter 5 60) mux (sample_request "203.0.113.7" "hello")
                 (with_faults sample_world [true])))
  = StatusInternalServerError
  ∧ posts (store (with_faults sample_world [])) = posts (store sample_world).
Proof.
  pose proof (rate_limit_fail_closed (NewRateLimiter 5 60) mux
                (sample_request "203.0.113.7" "hello")
                (with_faults sample_world [true]) (with_faults sample_world [])
                eq_refl eq_refl) as (_ & H2 & H3 & _).
  split; [exact H2 | by rewrite H3].
Defined.

(** ** Pagination of GET /api/posts *)

Lemma parseLimit_range limitStr : 0 < parseLimit limitStr ≤ 100.
Proof.
  unfold parseLimit. repeat case_match; lia.
Qed.

Lemma parseOffset_range offsetStr : 0 ≤ parseOffset offsetStr.
Proof.
  unfold parseOffset. repeat case_match; lia.
Qed.

Lemma Atoi_empty : GoStrings.Atoi "" = None.
Proof. reflexivity. Qed.

Lemma parseLimit_parsed limitStr n :
  GoStrings.Atoi limitStr = Some n →
  parseLimit limitStr = if decide (0 < n ≤ 100) then n else 50.
Proof.
  intros HA. unfold parseLimit.
  destruct (String.eqb_spec limitStr "") as [-> | _]; [by rewrite Atoi_empty in HA |].
  simpl. rewrite HA.
  destruct (decide (0 < n ≤ 100)) as [[? ?] | Hn].
  - replace (0 <? n) with true by (symmetry; by apply Z.ltb_lt).
    replace (n <=? 100) with true by (symmetry; by apply Z.leb_le). done.
  - destruct (Z.ltb_spec 0 n), (Z.leb_spec n 100); simpl; try done. lia.
Qed.

Lemma parseOffset_parsed offsetStr n :
  GoStrings.Atoi offsetStr = Some n →
  parseOffset offsetStr = if decide (0 ≤ n) then n else 0.
Proof.
  intros HA. unfold parseOffset.
  destruct (String.eqb_spec offsetStr "") as [-> | _]; [by rewrite Atoi_empty in HA |].
  simpl. rewrite HA.
  destruct (decide (0 ≤ n)), (Z.leb_spec 0 n); try done; lia.
Qed.

Lemma parse_unparsed limitStr :
  GoStrings.Atoi limitStr = None → parseLimit limitStr = 50 ∧ parseOffset limitStr = 0.
Proof.
  intros HA. unfold parseLimit, parseOffset. rewrite HA. by destruct (String.eqb _ _).
Qed.

Lemma select_posts_length eventFilter limit offset w :
  Z.of_nat (length (select_posts eventFilter limit offset w)) ≤ Z.max 0 limit.
Proof. unfold select_posts. rewrite length_take. lia. Qed.

(** C6, the claim as written fails: a supplied limit of 1000 is not clamped
    to 100, the default 50 is used. *)
Lemma page_limit_not_clamped :
  GoStrings.Atoi "1000" = Some 1000 ∧ parseLimit "1000" = 50
  ∧ clamp_limit 1000 = 100 ∧ parseLimit "1000" ≠ clamp_limit 1000.
Proof. vm_compute. repeat split; discriminate. Qed.

(** C6, amended. The effective limit of GET /api/posts is the supplied
    value when it is an integer in (0,100] and the default 50 otherwise
    (absent, not an integer, or outside (0,100]); the effective offset is the
    supplied value when it is an integer at least 0 and the default 0
    otherwise.  So the effective limit always lies in (0,100], the effective
    offset is never negative, and at most 100 posts are returned. *)
Theorem page_params (limitStr offsetStr : string) :
  let limit := parseLimit limitStr in
  let offset := parseOffset offsetStr in
  (0 < limit ≤ 100 ∧ 0 ≤ offset)
  ∧ (limitStr = "" → limit = 50)
  ∧ (offsetStr = "" → offset = 0)
  ∧ (∀ n, GoStrings.Atoi limitStr = Some n → limit = if decide (0 < n ≤ 100) then n else 50)
  ∧ (∀ n, GoStrings.Atoi offsetStr = Some n → offset = clamp_offset n)
  ∧ (GoStrings.Atoi limitStr = None → limit = 50)
  ∧ (GoStrings.Atoi offsetStr = None → offset = 0)
  ∧ (∀ r w ps,
       Get (Query r) "limit" = limitStr → Get (Query r) "offset" = offsetStr →
       Payload_ (fst (GetPosts r w)) = JsonPosts ps →
       ps = select_posts (Get (Query r) "event") limit offset (snd (pop_fault w))
       ∧ Z.of_nat (length ps) ≤ 100).
Proof.
  intros limit offset. subst limit offset.
  split; [split; [apply parseLimit_range | apply parseOffset_range] |].
  split; [by intros -> |].
  split; [by intros -> |].
  split; [apply parseLimit_parsed |].
  split.
  { intros n HA. rewrite (parseOffset_parsed _ _ HA). unfold clamp_offset.
    destruct (decide (0 ≤ n)); lia. }
  split; [intros HA; by apply parse_unparsed |].
  split; [intros HA; by apply parse_unparsed |].
  intros r w ps <- <-. unfold GetPosts, DB_GetPosts, db_call.
  destruct (pop_fault w) as [[] w0]; simpl; [discriminate |].
  intros [= <-]. split; [done |].
  pose proof (select_posts_length (Get (Query r) "event")
                (parseLimit (Get (Query r) "limit"))
                (parseOffset (Get (Query r) "offset")) w0).
  pose proof (parseLimit_range (Get (Query r) "limit")). lia.
Qed.

Lemma page_params_witness :
  GoStrings.Atoi "1000" = Some 1000 ∧ GoStrings.Atoi "-3" = Some (-3)
  ∧ parseLimit "1000" = 50 ∧ parseOffset "-3" = 0
  ∧ 0 < parseLimit "1000" ≤ 100.
Proof.
  pose proof (page_params "1000" "-3") as H. cbv zeta in H.
  destruct H as ((Hrange & _) & _ & _ & Hl & Ho & _).
  assert (H1 : GoStrings.Atoi "1000" = Some 1000) by (vm_compute; reflexivity).
  assert (H2 : GoStrings.Atoi "-3" = Some (-3)) by (vm_compute; reflexivity).
  split; [exact H1 |]. split; [exact H2 |].
  split; [exact (Hl 1000 H1) |]. split; [exact (Ho (-3) H2) | exact Hrange].
Defined.

(** ** Validation of a create-post request *)

Lemma validate_iff req :
  validateCreatePostRequest req = None ↔
  other_fields_valid req
  ∧ 1 ≤ CreatePostRequest.Age req ≤ 120
  ∧ GoStrings.TrimSpace (CreatePostRequest.Content req) ≠ ""
  ∧ GoStrings.len (GoStrings.TrimSpace (CreatePostRequest.Content req)) ≤ 5000.
Proof.
  unfold validateCreatePostRequest, other_fields_valid.
  destruct (String.eqb_spec (GoStrings.TrimSpace (CreatePostRequest.EventName req)) "");
    [split; [discriminate | tauto] |].
  destruct (Z.ltb_spec 200 (GoStrings.len (GoStrings.TrimSpace (CreatePostRequest.EventName req))));
    [split; [discriminate | lia] |].
  destruct (String.eqb_spec (GoStrings.TrimSpace (CreatePostRequest.Content req)) "");
    [split; [discriminate | tauto] |].
  destruct (Z.ltb_spec 5000 (GoStrings.len (GoStrings.TrimSpace (CreatePostRequest.Content req))));
    [split; [discriminate | lia] |].
  destruct (Z.ltb_spec (CreatePostRequest.Age req) 1); simpl;
    [split; [discriminate | lia] |].
  destruct (Z.ltb_spec 120 (CreatePostRequest.Age req)); simpl;
    [split; [discriminate | lia] |].
  destruct (String.eqb_spec (GoStrings.TrimSpace (CreatePostRequest.Location req)) "");
    [split; [discriminate | tauto] |].
  destruct (Z.ltb_spec 200 (GoStrings.len (GoStrings.TrimSpace (CreatePostRequest.Location req))));
    [split; [discriminate | lia] |].
  destruct (String.eqb_spec (CreatePostRequest.Gender req) ""); simpl;
    [split; [intros _; repeat split; auto; lia | done] |].
  destruct (Z.ltb_spec 20 (GoStrings.len (CreatePostRequest.Gender req)));
    [split; [discriminate | intros ((_ & _ & _ & _ & [? | ?]) & _); [done | lia]] |].
  split; [intros _; repeat split; auto; lia | done].
Qed.

Lemma CreatePost_rejects r w req err :
  Body r = Some req → validateCreatePostRequest req = Some err →
  CreatePost r w = (respondWithError StatusBadRequest err, w).
Proof. intros HB HV. unfold CreatePost. by rewrite HB, HV. Qed.



(** C7, the claim as written fails: a content of one space is not empty
    and within 5000 bytes, with an age within bounds, and is rejected; a
    content of 5001 bytes that ends in a space is accepted; a content of 2501
    two-byte characters is rejected. *)
Lemma validation_not_on_raw_content :
  validateCreatePostRequest (sample_post " " 30) = Some "content is required"
  ∧ (1 ≤ 30 ≤ 120 ∧ " " ≠ "" ∧ GoStrings.len " " ≤ 5000)
  ∧ validateCreatePostRequest (sample_post (letters 5000 +:+ " ") 30) = None
  ∧ GoStrings.len (letters 5000 +:+ " ") = 5001
  ∧ validateCreatePostRequest (sample_post (accented 2501) 30)
    = Some "content must be 5000 characters or less"
  ∧ rune_count (accented 2501) = 2501.
Proof. vm_compute. repeat split; congruence. Qed.

(** C7, amended. Validation accepts an age of 1 and of 120 and rejects 0
    and 121; it accepts a content of 5000 bytes and rejects one of 5001 bytes
    (neither with surrounding white space); a rejection is answered 400 with
    the validation message.  For every request whose other fields pass,
    acceptance is decided exactly by 1 <= age <= 120 and by the content,
    with surrounding white space trimmed, being non-empty and at most 5000
    bytes long. *)
Theorem validation_bounds (req : CreatePostRequest.t) :
  other_fields_valid req →
  (validateCreatePostRequest req = None ↔
     1 ≤ CreatePostRequest.Age req ≤ 120
     ∧ GoStrings.TrimSpace (CreatePostRequest.Content req) ≠ ""
     ∧ GoStrings.len (GoStrings.TrimSpace (CreatePostRequest.Content req)) ≤ 5000)
  ∧ (∀ r w err, Body r = Some req → validateCreatePostRequest req = Some err →
       CreatePost r w = (respondWithError StatusBadRequest err, w))
  ∧ validateCreatePostRequest (sample_post "Hello" 1) = None
  ∧ validateCreatePostRequest (sample_post "Hello" 120) = None
  ∧ validateCreatePostRequest (sample_post "Hello" 0) = Some "age must be between 1 and 120"
  ∧ validateCreatePostRequest (sample_post "Hello" 121) = Some "age must be between 1 and 120"
  ∧ validateCreatePostRequest (sample_post (letters 5000) 30) = None
  ∧ validateCreatePostRequest (sample_post (letters 5001) 30)
    = Some "content must be 5000 characters or less".
Proof.
  intros Hother. split; [rewrite validate_iff; tauto |].
  split; [intros r w err; apply CreatePost_rejects |].
  vm_compute. repeat split; reflexivity.
Qed.

Lemma validation_bounds_witness :
  other_fields_valid (sample_post " Hello " 120)
  ∧ (validateCreatePostRequest (sample_post " Hello " 120) = None ↔
       1 ≤ 120 ≤ 120 ∧ GoStrings.TrimSpace " Hello " ≠ ""
       ∧ GoStrings.len (GoStrings.TrimSpace " Hello ") ≤ 5000).
Proof.
  assert (H : other_fields_valid (sample_post " Hello " 120)).
  { unfold other_fields_valid. vm_compute. repeat split; try discriminate. by left. }
  split; [exact H |].
  exact (proj1 (validation_bounds (sample_post " Hello " 120) H)).
Defined.



(** ** The migration runner, one file at a time *)

Lemma pop_fault_store w : store (snd (pop_fault w)) = store w.
Proof. apply pop_fault_frame. Qed.
Lemma pop_fault_trace w : trace (snd (pop_fault w)) = trace w.
Proof. apply pop_fault_frame. Qed.
Lemma pop_fault_dir w : migrations_dir (snd (pop_fault w)) = migrations_dir w.
Proof. apply pop_fault_frame. Qed.

Create Rewrite HintDb world.
Hint Rewrite pop_fault_store pop_fault_trace pop_fault_dir : world.
Hint Rewrite @omap_app @app_nil_r : world.

Ltac world_simpl :=
  repeat (progress (simpl store in *; simpl trace in *; simpl migrations_dir in *;
                    simpl schema_migrations in *; simpl posts in *; simpl next_id in *;
                    unfold executed_versions, read_files, connections in *;
                    autorewrite with world in *; simpl omap in *)).

Lemma must_bind {A B} (call : World → option A * World) msg (k : A → Proc B) w :
  (must call msg ≫= k) w =
    match call w with
    | (Some a, w1) => k a w1
    | (None, w1) => (Fatal msg, emit (EvLog msg) w1)
    end.
Proof.
  unfold mbind, proc_bind, must, log_Fatal.
  destruct (call w) as [[a |] w1]; reflexivity.
Qed.

Lemma log_bind {B} msg (k : unit → Proc B) w :
  (log_Println msg ≫= k) w = k tt (emit (EvLog msg) w).
Proof. reflexivity. Qed.

Lemma version_exists_eq v w :
  version_exists v w =
    (if fst (pop_fault w) then None
     else Some (bool_decide (v ∈ schema_migrations (store w))),
     snd (pop_fault w)).
Proof.
  unfold version_exists, db_call. pose proof (pop_fault_store w) as Hs.
  destruct (pop_fault w) as [[] w0]; simpl in *; by rewrite ?Hs.
Qed.

Lemma ReadFile_eq f w : ReadFile f w = (fst (ReadFile f w), emit (EvReadFile f) w).
Proof. reflexivity. Qed.

Lemma exec_script_eq v sql w :
  exec_script v sql w =
    if fst (pop_fault w) then (None, snd (pop_fault w))
    else (Some tt, emit (EvExec v sql) (snd (pop_fault w))).
Proof. unfold exec_script, db_call. by destruct (pop_fault w) as [[] w0]. Qed.

Lemma record_version_eq v w :
  v ∉ schema_migrations (store w) →
  record_version v w =
    if fst (pop_fault w) then (None, snd (pop_fault w))
    else (Some tt, with_store_versions (snd (pop_fault w))
                     (schema_migrations (store w) ++ [v])).
Proof.
  intros Hnin. unfold record_version, db_call, with_store_versions.
  rewrite bool_decide_eq_false_2 by done.
  pose proof (pop_fault_store w) as Hs.
  destruct (pop_fault w) as [[] w0]; simpl in *; by rewrite ?Hs.
Qed.

(** What one turn of the loop of [runMigrations] does, by the calls that
    fail. *)
Lemma apply_migrations_cons f rest w r w' :
  apply_migrations (f :: rest) w = (r, w') →
  let v := version_of f in
  let w0 := snd (pop_fault w) in
  let w2 := emit (EvLog ("Applying migration: " +:+ v)) (emit (EvReadFile f) w0) in
  let w3 sql := emit (EvExec v sql) (snd (pop_fault w2)) in
  (fst (pop_fault w) = true
   ∧ r = Fatal ("Failed to check migration status for " +:+ v)
   ∧ w' = emit (EvLog ("Failed to check migration status for " +:+ v)) w0)
  ∨ (fst (pop_fault w) = false ∧ v ∈ schema_migrations (store w)
     ∧ apply_migrations rest
         (emit (EvLog ("Migration " +:+ v +:+ " already applied, skipping")) w0) = (r, w'))
  ∨ (fst (pop_fault w) = false ∧ (v ∉ schema_migrations (store w))
     ∧ fst (ReadFile f w0) = None
     ∧ r = Fatal ("Failed to read migration file " +:+ f)
     ∧ w' = emit (EvLog ("Failed to read migration file " +:+ f)) (emit (EvReadFile f) w0))
  ∨ (fst (pop_fault w) = false ∧ (v ∉ schema_migrations (store w))
     ∧ is_Some (fst (ReadFile f w0))
     ∧ fst (pop_fault w2) = true
     ∧ r = Fatal ("Failed to run migration " +:+ v)
     ∧ w' = emit (EvLog ("Failed to run migration " +:+ v)) (snd (pop_fault w2)))
  ∨ (∃ sql, fst (pop_fault w) = false ∧ (v ∉ schema_migrations (store w))
     ∧ fst (ReadFile f w0) = Some sql
     ∧ fst (pop_fault w2) = false ∧ fst (pop_fault (w3 sql)) = true
     ∧ r = Fatal ("Failed to record migration " +:+ v)
     ∧ w' = emit (EvLog ("Failed to record migration " +:+ v)) (snd (pop_fault (w3 sql))))
  ∨ (∃ sql, fst (pop_fault w) = false ∧ (v ∉ schema_migrations (store w))
     ∧ fst (ReadFile f w0) = Some sql
     ∧ fst (pop_fault w2) = false ∧ fst (pop_fault (w3 sql)) = false
     ∧ apply_migrations rest
         (emit (EvLog ("Migration " +:+ v +:+ " completed successfully"))
            (with_store_versions (snd (pop_fault (w3 sql)))
               (schema_migrations (store w) ++ [v]))) = (r, w')).
Proof.
  intros H v w0 w2 w3.
  change (apply_migrations (f :: rest)) with
    (exists_ ← must (version_exists v) ("Failed to check migration status for " +:+ v);
     if (exists_ : bool) then
       log_Println ("Migration " +:+ v +:+ " already applied, skipping");;
       apply_migrations rest
     else
       sqlBytes ← must (ReadFile f) ("Failed to read migration file " +:+ f);
       log_Println ("Applying migration: " +:+ v);;
       must (exec_script v sqlBytes) ("Failed to run migration " +:+ v);;
       must (record_version v) ("Failed to record migration " +:+ v);;
       log_Println ("Migration " +:+ v +:+ " completed successfully");;
       apply_migrations rest) in H.
  rewrite must_bind, version_exists_eq in H. fold w0 in H.
  destruct (fst (pop_fault w)) eqn:Hp.
  { left. by injection H as <- <-. }
  right.
  destruct (bool_decide_reflect (v ∈ schema_migrations (store w))) as [Hin | Hnin].
  { left. by rewrite log_bind in H. }
  right. rewrite must_bind, ReadFile_eq in H.
  destruct (fst (ReadFile f w0)) as [sql |] eqn:Hfound.
  2: { left. by injection H as <- <-. }
  right. rewrite log_bind, must_bind, exec_script_eq in H. fold w2 in H.
  destruct (fst (pop_fault w2)) eqn:Hp2.
  { left. by injection H as <- <-. }
  right. fold (w3 sql) in H.
  assert (Hst3 : schema_migrations (store (w3 sql)) = schema_migrations (store w)).
  { subst w3 w2 w0. simpl. rewrite pop_fault_store. simpl. by rewrite pop_fault_store. }
  rewrite must_bind, record_version_eq in H by (by rewrite Hst3).
  destruct (fst (pop_fault (w3 sql))) eqn:Hp3.
  { left. exists sql. by injection H as <- <-. }
  right. exists sql. rewrite log_bind, Hst3 in H. done.
Qed.

Lemma pending_cons_recorded recorded f rest :
  version_of f ∈ recorded → pending recorded (f :: rest) = pending recorded rest.
Proof. intros H. simpl. by rewrite bool_decide_eq_true_2. Qed.

Lemma pending_cons_new recorded f rest :
  version_of f ∉ recorded →
  pending recorded (f :: rest) = f :: pending (recorded ++ [version_of f]) rest.
Proof. intros H. simpl. by rewrite bool_decide_eq_false_2. Qed.

(** Two fatal messages of the runner with different leading words differ. *)
Ltac msg_clash :=
  match goal with
  | H : Fatal _ = Fatal _ |- _ =>
      injection H as H; apply (f_equal (substring 0 14)) in H;
      vm_compute in H; discriminate H
  end.

Ltac msg_same :=
  match goal with
  | H : Fatal _ = Fatal _ |- _ =>
      injection H as H; apply (inj (String.app _)) in H; subst
  end.

(** The effect of the loop of [runMigrations] on the files read, the
    scripts executed and the versions recorded: three prefixes, each of the
    next, of the files pending at the start. *)
Lemma apply_migrations_run files : ∀ w r w',
  apply_migrations files w = (r, w') →
  posts (store w') = posts (store w)
  ∧ next_id (store w') = next_id (store w)
  ∧ migrations_dir w' = migrations_dir w
  ∧ ∃ pr pe pa,
      pa `prefix_of` pe ∧ pe `prefix_of` pr
      ∧ pr `prefix_of` pending (schema_migrations (store w)) files
      ∧ read_files (trace w') = read_files (trace w) ++ pr
      ∧ executed_versions (trace w') = executed_versions (trace w) ++ map version_of pe
      ∧ schema_migrations (store w') = schema_migrations (store w) ++ map version_of pa
      ∧ (r = Done tt → pa = pending (schema_migrations (store w)) files)
      ∧ (∀ v, r = Fatal ("Failed to run migration " +:+ v) →
           pe = pa ∧ v ∉ schema_migrations (store w'))
      ∧ (∀ v, r = Fatal ("Failed to record migration " +:+ v) →
           (∃ f, pe = pa ++ [f] ∧ version_of f = v) ∧ v ∉ schema_migrations (store w')).
Proof.
  induction files as [| f rest IH]; intros w r w' H.
  { injection H as <- <-. repeat (split; [done |]).
    exists [], [], []. simpl map. rewrite ?app_nil_r. repeat split; try done. }
  apply apply_migrations_cons in H. cbv zeta in H.
  destruct H as [(Hp & -> & ->) | [(Hp & Hin & H) | [(Hp & Hnin & Hrd & -> & ->)
    | [(Hp & Hnin & Hrd & Hp2 & -> & ->) | [(sql & Hp & Hnin & Hrd & Hp2 & Hp3 & -> & ->)
    | (sql & Hp & Hnin & Hrd & Hp2 & Hp3 & H)]]]]].
  - (* the status query fails *)
    world_simpl. repeat (split; [done |]).
    exists [], [], []. simpl map. rewrite ?app_nil_r.
    repeat split; try done; try apply prefix_nil; msg_clash.
  - (* already recorded: skipped *)
    apply IH in H as (H1 & H2 & H3 & pr & pe & pa & Hx). world_simpl.
    repeat (split; [done |]).
    exists pr, pe, pa. rewrite pending_cons_recorded by done. exact Hx.
  - (* the file cannot be read *)
    world_simpl. repeat (split; [done |]).
    exists [f], [], []. rewrite pending_cons_new by done. simpl map. rewrite ?app_nil_r.
    repeat split; try done; try apply prefix_nil;
      try (apply prefix_cons, prefix_nil); msg_clash.
  - (* the script fails *)
    world_simpl. repeat (split; [done |]).
    exists [f], [], []. rewrite pending_cons_new by done. simpl map. rewrite ?app_nil_r.
    repeat split; try done; try apply prefix_nil;
      try (apply prefix_cons, prefix_nil); try msg_clash.
    msg_same. done.
  - (* the version cannot be recorded *)
    world_simpl. repeat (split; [done |]).
    exists [f], [f], []. rewrite pending_cons_new by done. simpl map. rewrite ?app_nil_r.
    repeat split; try done; try apply prefix_nil;
      try (apply prefix_cons, prefix_nil); try msg_clash.
    + msg_same. by exists f.
    + msg_same. done.
  - (* applied and recorded *)
    apply IH in H as (H1 & H2 & H3 & pr & pe & pa & Ha & He & Hr & Hrf & Hex & Hsm & Hd & Hrun & Hrec).
    unfold with_store_versions in *. world_simpl.
    repeat (split; [done |]).
    exists (f :: pr), (f :: pe), (f :: pa). rewrite pending_cons_new by done.
    split; [by apply prefix_cons |]. split; [by apply prefix_cons |].
    split; [by apply prefix_cons |].
    split; [by rewrite Hrf, <- app_assoc |].
    split; [by rewrite Hex, <- !app_assoc |].
    split; [by rewrite Hsm, <- app_assoc |].
    split; [intros Hdone; by rewrite (Hd Hdone) |].
    split.
    + intros v Hv. destruct (Hrun v Hv) as [-> ?]. done.
    + intros v Hv. destruct (Hrec v Hv) as [(f' & -> & ?) ?]. split; [| done].
      by exists f'.
Qed.

(** ** Suffixes, versions and pending files *)


Lemma substring_app_l a b : substring 0 (String.length a) (a +:+ b) = a.
Proof.
  induction a as [| c a IH]; simpl.
  - by destruct b.
  - by rewrite IH.
Qed.


Lemma app_String c a b : String c a +:+ b = String c (a +:+ b).
Proof. reflexivity. Qed.











Global Instance entry_le_trans : Transitive entry_le.
Proof. intros a b c. unfold entry_le. apply transitivity. Qed.

Global Instance entry_le_total : Total entry_le.
Proof. intros a b. unfold entry_le. apply total, _. Qed.



Lemma pending_elem recorded files f :
  f ∈ pending recorded files → f ∈ files ∧ version_of f ∉ recorded.
Proof.
  revert recorded. induction files as [| g rest IH]; intros recorded; simpl.
  - by intros ?%elem_of_nil.
  - case_bool_decide as Hg.
    + intros [? ?]%IH. split; [by right | done].
    + intros [-> | [? Hn]%IH]%elem_of_cons; [split; [by left | done] |].
      split; [by right |]. intros ?. apply Hn. apply elem_of_app. by left.
Qed.

Lemma pending_NoDup recorded files : NoDup (map version_of (pending recorded files)).
Proof.
  revert recorded. induction files as [| g rest IH]; intros recorded; simpl; [constructor |].
  case_bool_decide as Hg; [apply IH |].
  simpl. apply NoDup_cons. split; [| apply IH].
  intros (f & Hv & [_ Hn]%pending_elem)%list_elem_of_fmap.
  apply Hn. apply elem_of_app. right. rewrite Hv. by left.
Qed.

Lemma pending_covers recorded files f :
  f ∈ files → version_of f ∈ recorded ++ map version_of (pending recorded files).
Proof.
  revert recorded. induction files as [| g rest IH]; intros recorded; simpl.
  - by intros ?%elem_of_nil.
  - intros [-> | Hin]%elem_of_cons.
    + case_bool_decide as Hg; [apply elem_of_app; by left |].
      apply elem_of_app. right. by left.
    + case_bool_decide as Hg; [by apply IH |].
      specialize (IH (recorded ++ [version_of g]) Hin).
      rewrite <- app_assoc in IH. exact IH.
Qed.

Lemma pending_nil recorded files :
  (∀ f, f ∈ files → version_of f ∈ recorded) → pending recorded files = [].
Proof.
  induction files as [| g rest IH]; intros Hall; simpl; [done |].
  rewrite bool_decide_eq_true_2 by (apply Hall; by left).
  apply IH. intros f Hf. apply Hall. by right.
Qed.



(** ** The migration runner as a whole *)

Lemma runMigrations_cases w r w' :
  runMigrations w = (r, w') →
  (fst (pop_fault w) = true
   ∧ r = Fatal "Failed to create schema_migrations table"
   ∧ w' = emit (EvLog "Failed to create schema_migrations table") (snd (pop_fault w)))
  ∨ (fst (pop_fault w) = false ∧ migrations_dir w = None
     ∧ r = Fatal "Failed to read migrations directory"
     ∧ w' = emit (EvLog "Failed to read migrations directory") (snd (pop_fault w)))
  ∨ (fst (pop_fault w) = false ∧ is_Some (migrations_dir w)
     ∧ ∃ w1, apply_migrations (discovered w) (snd (pop_fault w)) = (r, w1)
             ∧ w' = match r with
                    | Done _ => emit (EvLog "All migrations completed successfully") w1
                    | Fatal _ => w1
                    end).
Proof.
  unfold runMigrations. rewrite must_bind.
  unfold create_tracking_table, db_call.
  pose proof (pop_fault_dir w) as Hd. unfold discovered.
  destruct (pop_fault w) as [[] w0]; simpl in *.
  { intros [= <- <-]. by left. }
  right. rewrite must_bind in H. unfold ReadDir in H. rewrite Hd in H.
  destruct (migrations_dir w) as [entries |]; simpl in *.
  2: { left. by injection H as <- <-. }
  right. split; [done |]. split; [by eexists |].
  unfold mbind, proc_bind in H.
  destruct (apply_migrations (sql_files (merge_sort entry_le entries)) w0)
    as [[[] | msg] w1] eqn:Hrun.
  - exists w1. by injection H as <- <-.
  - exists w1. by injection H as <- <-.
Qed.

(** The effect of a run of [runMigrations]. *)
Lemma runMigrations_run w r w' :
  runMigrations w = (r, w') →
  posts (store w') = posts (store w)
  ∧ next_id (store w') = next_id (store w)
  ∧ migrations_dir w' = migrations_dir w
  ∧ ∃ pr pe pa,
      pa `prefix_of` pe ∧ pe `prefix_of` pr
      ∧ pr `prefix_of` pending (schema_migrations (store w)) (discovered w)
      ∧ read_files (trace w') = read_files (trace w) ++ pr
      ∧ executed_versions (trace w') = executed_versions (trace w) ++ map version_of pe
      ∧ schema_migrations (store w') = schema_migrations (store w) ++ map version_of pa
      ∧ (r = Done tt → pa = pending (schema_migrations (store w)) (discovered w))
      ∧ (∀ v, r = Fatal ("Failed to run migration " +:+ v) →
           pe = pa ∧ v ∉ schema_migrations (store w'))
      ∧ (∀ v, r = Fatal ("Failed to record migration " +:+ v) →
           (∃ f, pe = pa ++ [f] ∧ version_of f = v) ∧ v ∉ schema_migrations (store w')).
Proof.
  intros H. apply runMigrations_cases in H.
  destruct H as [(Hp & -> & ->) | [(Hp & Hd & -> & ->) | (Hp & Hd & w1 & H & ->)]].
  - world_simpl. repeat (split; [done |]).
    exists [], [], []. simpl map. rewrite ?app_nil_r.
    repeat split; try done; try apply prefix_nil; msg_clash.
  - world_simpl. repeat (split; [done |]).
    exists [], [], []. simpl map. rewrite ?app_nil_r.
    repeat split; try done; try apply prefix_nil; msg_clash.
  - apply apply_migrations_run in H as (H1 & H2 & H3 & pr & pe & pa & Hx).
    assert (Hproj : ∀ w2 : World,
              w2 = match r with
                   | Done _ => emit (EvLog "All migrations completed successfully") w1
                   | Fatal _ => w1 end →
              store w2 = store w1 ∧ migrations_dir w2 = migrations_dir w1
              ∧ read_files (trace w2) = read_files (trace w1)
              ∧ executed_versions (trace w2) = executed_versions (trace w1)).
    { intros w2 ->. destruct r; world_simpl; done. }
    destruct (Hproj _ eq_refl) as (E1 & E2 & E3 & E4).
    rewrite E1, E2, E3, E4. clear Hproj E1 E2 E3 E4.
    world_simpl. repeat (split; [done |]).
    exists pr, pe, pa. exact Hx.
Qed.

Lemma pop_fault_healthy w :
  Forall (λ b, b = false) (faults w) →
  fst (pop_fault w) = false ∧ Forall (λ b, b = false) (faults (snd (pop_fault w))).
Proof.
  unfold pop_fault. destruct (faults w) as [| b fs] eqn:E; simpl.
  - intros _. by rewrite E.
  - by intros [-> ?]%Forall_cons.
Qed.

(** With every version recorded and a store that answers, the loop only
    skips. *)
Lemma apply_migrations_skip files : ∀ w,
  Forall (λ b, b = false) (faults w) →
  (∀ f, f ∈ files → version_of f ∈ schema_migrations (store w)) →
  ∃ w', apply_migrations files w = (Done tt, w').
Proof.
  induction files as [| f rest IH]; intros w Hok Hall; [by eexists |].
  destruct (apply_migrations (f :: rest) w) as [r w'] eqn:H.
  pose proof (pop_fault_healthy w Hok) as [Hp Hok'].
  assert (Hf : version_of f ∈ schema_migrations (store w)) by (apply Hall; by left).
  apply apply_migrations_cons in H. cbv zeta in H.
  destruct H as [(Hp' & _) | [(_ & _ & H) | [(_ & Hn & _) | [(_ & Hn & _)
    | [(sql & _ & Hn & _) | (sql & _ & Hn & _)]]]]]; try done; try congruence.
  destruct (IH (emit (EvLog ("Migration " +:+ version_of f +:+ " already applied, skipping"))
                  (snd (pop_fault w)))) as [w'' Hw''].
  - done.
  - intros g Hg. world_simpl. apply Hall. by right.
  - exists w''. congruence.
Qed.

(** A run that completes has met no failing call to the store. *)
Lemma apply_migrations_faults files : ∀ w r w',
  apply_migrations files w = (r, w') →
  ∃ used, faults w = used ++ faults w'
          ∧ (r = Done tt → Forall (λ b, b = false) used).
Proof.
  induction files as [| f rest IH]; intros w r w' H.
  { injection H as <- <-. exists []. split; [done | by constructor]. }
  apply apply_migrations_cons in H. cbv zeta in H.
  destruct (pop_fault_faults w) as (u1 & E1 & F1).
  destruct H as [(Hp & -> & ->) | [(Hp & Hin & H) | [(Hp & Hnin & Hrd & -> & ->)
    | [(Hp & Hnin & Hrd & Hp2 & -> & ->) | [(sql & Hp & Hnin & Hrd & Hp2 & Hp3 & -> & ->)
    | (sql & Hp & Hnin & Hrd & Hp2 & Hp3 & H)]]]]].
  - exists u1. split; [done | discriminate].
  - apply IH in H as (u2 & E2 & F2). simpl in E2.
    exists (u1 ++ u2). split; [by rewrite E1, E2, app_assoc |].
    intros Hd. apply Forall_app. auto.
  - exists u1. split; [done | discriminate].
  - match goal with |- context [pop_fault ?x] =>
      destruct (pop_fault_faults x) as (u2 & E2 & F2) end.
    simpl in E2. exists (u1 ++ u2). split; [| discriminate].
    by rewrite E1, E2, app_assoc.
  - match type of Hp2 with context [pop_fault ?x] =>
      destruct (pop_fault_faults x) as (u2 & E2 & F2) end.
    match type of Hp3 with context [pop_fault ?x] =>
      destruct (pop_fault_faults x) as (u3 & E3 & F3) end.
    simpl in E2, E3. exists (u1 ++ u2 ++ u3). split; [| discriminate].
    simpl. by rewrite E1, E2, E3, !app_assoc.
  - match type of Hp2 with context [pop_fault ?x] =>
      destruct (pop_fault_faults x) as (u2 & E2 & F2) end.
    match type of Hp3 with context [pop_fault ?x] =>
      destruct (pop_fault_faults x) as (u3 & E3 & F3) end.
    apply IH in H as (u4 & E4 & F4).
    simpl in E2, E3, E4. exists (u1 ++ u2 ++ u3 ++ u4).
    split; [by rewrite E1, E2, E3, E4, !app_assoc |].
    intros Hd. rewrite !Forall_app. auto.
Qed.

Lemma runMigrations_faults w w' :
  runMigrations w = (Done tt, w') →
  ∃ used, faults w = used ++ faults w' ∧ Forall (λ b, b = false) used.
Proof.
  intros H. apply runMigrations_cases in H.
  destruct H as [(_ & ? & _) | [(_ & _ & ? & _) | (Hp & _ & w1 & H & ->)]]; try done.
  destruct (pop_fault_faults w) as (u1 & E1 & F1).
  apply apply_migrations_faults in H as (u2 & E2 & F2).
  exists (u1 ++ u2). simpl. split; [by rewrite E1, E2, app_assoc |].
  apply Forall_app. auto.
Qed.



Lemma prefix_squeeze {A} (pa pe pr l : list A) :
  pa `prefix_of` pe → pe `prefix_of` pr → pr `prefix_of` l → pa = l →
  pe = l ∧ pr = l.
Proof.
  intros H1 H2 H3 ->.
  assert (pr = l) as ->.
  { apply prefix_length_eq; [done |].
    etrans; [apply (prefix_length _ _ H1) | apply (prefix_length _ _ H2)]. }
  split; [| done]. apply prefix_length_eq; [done | by apply prefix_length].
Qed.



(** With every discovered version recorded and a store that answers, a run
    completes. *)
Lemma runMigrations_skip w :
  Forall (λ b, b = false) (faults w) → is_Some (migrations_dir w) →
  (∀ f, f ∈ discovered w → version_of f ∈ schema_migrations (store w)) →
  fst (runMigrations w) = Done tt.
Proof.
  intros Hok [entries Hd] Hall.
  destruct (pop_fault_healthy w Hok) as [Hp Hok'].
  destruct (apply_migrations_skip (discovered w) (snd (pop_fault w))) as [w1 H1].
  { done. } { intros f Hf. rewrite pop_fault_store. by apply Hall. }
  unfold runMigrations. rewrite must_bind.
  unfold create_tracking_table, db_call.
  pose proof (pop_fault_dir w) as Hd'. unfold discovered in H1. rewrite Hd in H1.
  destruct (pop_fault w) as [b w0]; simpl in *. subst b.
  rewrite must_bind. unfold ReadDir. rewrite Hd', Hd. simpl.
  unfold mbind, proc_bind. by rewrite H1.
Qed.

(** C2. After a run of the migration runner that completed, a second run
    against the store it left executes no script, reads no file, and leaves
    the recorded versions as they are; it completes if the store answers.
    No version is executed twice over the two runs, and a run never reads
    or executes a file whose version is recorded when it starts. *)
Theorem migration_rerun (w w1 w1' : World) :
  runMigrations w = (Done tt, w1) →
  store w1' = store w1 →
  migrations_dir w1' = migrations_dir w1 →
  let w2 := snd (runMigrations w1') in
  schema_migrations (store w2) = schema_migrations (store w1)
  ∧ executed_versions (trace w2) = executed_versions (trace w1')
  ∧ read_files (trace w2) = read_files (trace w1')
  ∧ (Forall (λ b, b = false) (faults w1') → fst (runMigrations w1') = Done tt)
  ∧ (executed_versions (trace w) = [] → trace w1' = trace w1 →
       NoDup (executed_versions (trace w2)))
  ∧ (∃ reads execs,
       read_files (trace w1) = read_files (trace w) ++ reads
       ∧ executed_versions (trace w1) = executed_versions (trace w) ++ execs
       ∧ ∀ v, v ∈ schema_migrations (store w) →
              (v ∉ execs) ∧ ∀ f, f ∈ reads → version_of f ≠ v).
Proof.
  intros Hrun Hst Hdir w2.
  pose proof Hrun as Hcases. apply runMigrations_cases in Hcases.
  destruct Hcases as [(_ & ? & _) | [(_ & _ & ? & _) | (_ & Hsome & _)]]; try done.
  apply runMigrations_run in Hrun
    as (_ & _ & Hd1 & pr & pe & pa & Ha & He & Hr & Hrf & Hex & Hsm & Hdone & _).
  specialize (Hdone eq_refl). subst pa.
  destruct (prefix_squeeze _ _ _ _ Ha He Hr eq_refl) as [-> ->].
  clear Ha He Hr.
  assert (Hdisc : discovered w1' = discovered w).
  { unfold discovered. by rewrite Hdir, Hd1. }
  assert (Hall : ∀ f, f ∈ discovered w1' → version_of f ∈ schema_migrations (store w1')).
  { intros f Hf. rewrite Hst, Hsm. apply pending_covers. by rewrite <- Hdisc. }
  destruct (runMigrations w1') as [r2 w2'] eqn:Hrun2. simpl in w2. subst w2.
  pose proof (runMigrations_run _ _ _ Hrun2)
    as (_ & _ & _ & pr & pe & pa & Ha & He & Hr & Hrf2 & Hex2 & Hsm2 & _).
  rewrite (pending_nil _ _ Hall) in Hr.
  apply prefix_nil_inv in Hr as ->. apply prefix_nil_inv in He as ->.
  apply prefix_nil_inv in Ha as ->. simpl in *. rewrite app_nil_r in *.
  split; [by rewrite Hsm2, Hst |]. split; [done |]. split; [done |].
  split.
  { intros Hok. pose proof (runMigrations_skip w1' Hok) as Hs.
    rewrite Hrun2 in Hs. apply Hs; [by rewrite Hdir, Hd1 | done]. }
  split.
  { intros Hnone Htr. rewrite Hex2, Htr, Hex, Hnone. simpl. apply pending_NoDup. }
  exists (pending (schema_migrations (store w)) (discovered w)),
         (map version_of (pending (schema_migrations (store w)) (discovered w))).
  split; [done |]. split; [done |]. intros v Hv. split.
  - intros (f & Hf & [_ Hn]%pending_elem)%list_elem_of_fmap. by subst v.
  - intros f [_ Hn]%pending_elem Hf. by subst v.
Qed.

Lemma migration_rerun_witness :
  let w1 := snd (runMigrations sample_world) in
  let w2 := snd (runMigrations w1) in
  runMigrations sample_world = (Done tt, w1)
  ∧ schema_migrations (store w1) = ["001_init"; "002_age_to_integer"]
  ∧ schema_migrations (store w2) = schema_migrations (store w1)
  ∧ executed_versions (trace w2) = ["001_init"; "002_age_to_integer"]
  ∧ fst (runMigrations w1) = Done tt.
Proof.
  intros w1 w2.
  assert (Hrun : runMigrations sample_world = (Done tt, w1)) by (vm_compute; reflexivity).
  pose proof (migration_rerun sample_world w1 w1 Hrun eq_refl eq_refl)
    as (H1 & H2 & _ & H4 & _).
  split; [exact Hrun |]. split; [vm_compute; reflexivity |].
  split; [exact H1 |].
  split; [etrans; [exact H2 |]; vm_compute; reflexivity |].
  apply H4. vm_compute. constructor.
Defined.

(** A fatal exit is the last thing the runner does. *)
Lemma apply_migrations_fatal_last files : ∀ w msg w',
  apply_migrations files w = (Fatal msg, w') → ∃ tr, trace w' = tr ++ [EvLog msg].
Proof.
  induction files as [| f rest IH]; intros w msg w' H; [discriminate |].
  apply apply_migrations_cons in H. cbv zeta in H.
  destruct H as [(_ & Hr & ->) | [(_ & _ & H) | [(_ & _ & _ & Hr & ->)
    | [(_ & _ & _ & _ & Hr & ->) | [(sql & _ & _ & _ & _ & _ & Hr & ->)
    | (sql & _ & _ & _ & _ & _ & H)]]]]];
    try (injection Hr as ->; by eexists); by apply IH in H.
Qed.

Lemma runMigrations_fatal_last w msg w' :
  runMigrations w = (Fatal msg, w') → ∃ tr, trace w' = tr ++ [EvLog msg].
Proof.
  intros H. apply runMigrations_cases in H.
  destruct H as [(_ & Hr & ->) | [(_ & _ & Hr & ->) | (_ & _ & w1 & H & ->)]];
    try (injection Hr as ->; by eexists).
  by apply apply_migrations_fatal_last in H.
Qed.

(** C3. A failure of the store is fatal to the runner: a run that
    completes has met no failing call, and a fatal exit is the last thing a
    run does.  When the run ends on the failure to execute a script, or to
    record it, the version of that script is not in the tracking table, and
    the scripts this run executed before it are the versions this run
    recorded. *)
Theorem migration_failure (w w' : World) (r : Result unit) :
  runMigrations w = (r, w') →
  (r = Done tt →
     ∃ used, faults w = used ++ faults w' ∧ Forall (λ b, b = false) used)
  ∧ (∀ msg, r = Fatal msg → ∃ tr, trace w' = tr ++ [EvLog msg])
  ∧ (∀ v, r = Fatal ("Failed to run migration " +:+ v) →
       (v ∉ schema_migrations (store w'))
       ∧ ∃ earlier,
           executed_versions (trace w') = executed_versions (trace w) ++ earlier
           ∧ schema_migrations (store w') = schema_migrations (store w) ++ earlier)
  ∧ (∀ v, r = Fatal ("Failed to record migration " +:+ v) →
       (v ∉ schema_migrations (store w'))
       ∧ ∃ earlier,
           executed_versions (trace w') = executed_versions (trace w) ++ earlier ++ [v]
           ∧ schema_migrations (store w') = schema_migrations (store w) ++ earlier).
Proof.
  intros Hrun. split.
  { intros ->. by apply runMigrations_faults. }
  split.
  { intros msg ->. by apply runMigrations_fatal_last in Hrun. }
  apply runMigrations_run in Hrun
    as (_ & _ & _ & pr & pe & pa & _ & _ & _ & _ & Hex & Hsm & _ & Hfr & Hfc).
  split.
  - intros v Hv. destruct (Hfr v Hv) as [-> Hn]. split; [done |].
    by exists (map version_of pa).
  - intros v Hv. destruct (Hfc v Hv) as [(f & -> & <-) Hn]. split; [done |].
    exists (map version_of pa). split; [| done].
    rewrite Hex. change map with (@fmap list _) . by rewrite fmap_app.
Qed.

Lemma migration_failure_witness :
  let w := with_faults sample_world [false; false; false; false; false; true] in
  let w' := snd (runMigrations w) in
  runMigrations w = (Fatal ("Failed to run migration " +:+ "002_age_to_integer"), w')
  ∧ ("002_age_to_integer" ∉ schema_migrations (store w'))
  ∧ schema_migrations (store w') = ["001_init"]
  ∧ executed_versions (trace w') = ["001_init"].
Proof.
  intros w w'.
  assert (Hrun : runMigrations w
                 = (Fatal ("Failed to run migration " +:+ "002_age_to_integer"), w'))
    by (vm_compute; reflexivity).
  pose proof (migration_failure w w' _ Hrun) as (_ & _ & Hfr & _).
  destruct (Hfr "002_age_to_integer" eq_refl) as (Hn & earlier & Hex & Hsm).
  split; [exact Hrun |]. split; [exact Hn |].
  split; vm_compute; reflexivity.
Defined.

(** ** Start-up configuration *)

Lemma getEnv_absent key defaultValue w :
  absent (environ w) key → getEnv key defaultValue w = defaultValue.
Proof. unfold absent, getEnv, Getenv. by intros ->. Qed.

Lemma getEnv_present key defaultValue w :
  ¬ absent (environ w) key →
  ∃ value, environ w !! key = Some value ∧ value ≠ ""
           ∧ getEnv key defaultValue w = value.
Proof.
  unfold absent, getEnv, Getenv. destruct (environ w !! key) as [value |]; simpl; [| done].
  intros Hne. exists value. destruct (String.eqb_spec value ""); done.
Qed.

Lemma getEnvInt_absent key defaultValue w :
  absent (environ w) key → getEnvInt key defaultValue w = defaultValue.
Proof. unfold absent, getEnvInt, Getenv. by intros ->. Qed.

Lemma NewDB_eq url w :
  NewDB url w =
    let w1 := snd (pop_fault (emit (EvConnect url) w)) in
    if fst (pop_fault (emit (EvConnect url) w)) then (None, w1)
    else (Some tt, emit (EvLog "Successfully connected to database") w1).
Proof.
  unfold NewDB, db_call. by destruct (pop_fault (emit (EvConnect url) w)) as [[] w1].
Qed.

Lemma proc_bind_eq {A B} (m : Proc A) (k : A → Proc B) w :
  (m ≫= k) w = match m w with
               | (Done a, w1) => k a w1
               | (Fatal msg, w1) => (Fatal msg, w1)
               end.
Proof. reflexivity. Qed.

Lemma main_startup_loaded w vars :
  dotenv_file w = Some vars →
  main_startup w =
    (cfg ← read_config;
     must (NewDB (databaseURL cfg)) "Failed to connect to database";;
     mret (cfg, NewRateLimiter (rateLimitRequests cfg) (rateLimitWindowMinutes cfg)))
    (with_environ w (effective_environ w)).
Proof.
  intros Hd. unfold main_startup. rewrite must_bind.
  unfold godotenv_Load, effective_environ. by rewrite Hd.
Qed.

(** C9, the claim as written fails: with the connection string supplied
    and the four other settings absent, start-up does not proceed with the
    defaults when file .env cannot be loaded; it exits with "Error loading
    .env file" before any connection is attempted. *)
Lemma startup_without_dotenv_file :
  let env := effective_environ no_dotenv_world in
  env !! "DATABASE_URL" = Some "postgres://localhost/hndshake"
  ∧ absent env "PORT" ∧ absent env "ALLOWED_ORIGINS"
  ∧ absent env "RATE_LIMIT_REQUESTS" ∧ absent env "RATE_LIMIT_WINDOW_MINUTES"
  ∧ fst (main_startup no_dotenv_world) = Fatal "Error loading .env file"
  ∧ connections (trace (snd (main_startup no_dotenv_world))) = []
  ∧ ¬ ∃ cfg rl, fst (main_startup no_dotenv_world) = Done (cfg, rl).
Proof.
  vm_compute. repeat split. intros (cfg & rl & H). discriminate H.
Qed.

(** C9, amended. When file .env cannot be loaded start-up is fatal before
    any connection to the store is attempted, whatever the environment
    holds.  A missing store connection string is fatal before any
    connection is attempted.  With file .env loaded and the connection
    string supplied, the connection is attempted with it whatever other
    settings are missing, and the listen port, the allowed origins, the
    rate-limit count and the rate-limit window take their defaults 8080,
    http://localhost:3000, 5 and 60 when absent. *)
Theorem startup_configuration (w w' : World) (r : Result (Config * RateLimiter)) :
  main_startup w = (r, w') →
  let env := effective_environ w in
  (absent env "DATABASE_URL" →
     (r = Fatal "DATABASE_URL environment variable is required"
      ∨ r = Fatal "Error loading .env file")
     ∧ connections (trace w') = connections (trace w))
  ∧ (is_Some (dotenv_file w) → ¬ absent env "DATABASE_URL" →
     ∃ url, env !! "DATABASE_URL" = Some url
       ∧ connections (trace w') = connections (trace w) ++ [url]
       ∧ (fst (pop_fault w) = true → r = Fatal "Failed to connect to database")
       ∧ (fst (pop_fault w) = false →
          ∃ cfg, r = Done (cfg, NewRateLimiter (rateLimitRequests cfg)
                                  (rateLimitWindowMinutes cfg))
            ∧ databaseURL cfg = url
            ∧ (absent env "PORT" → port cfg = "8080")
            ∧ (absent env "ALLOWED_ORIGINS" → allowedOrigins cfg = "http://localhost:3000")
            ∧ (absent env "RATE_LIMIT_REQUESTS" → rateLimitRequests cfg = 5)
            ∧ (absent env "RATE_LIMIT_WINDOW_MINUTES" → rateLimitWindowMinutes cfg = 60)))
  ∧ (dotenv_file w = None →
     r = Fatal "Error loading .env file"
     ∧ connections (trace w') = connections (trace w)).
Proof.
  intros Hrun env. split; [| split].
  3: { intros Hd. unfold main_startup in Hrun. rewrite must_bind in Hrun.
       unfold godotenv_Load in Hrun. rewrite Hd in Hrun.
       injection Hrun as <- <-. split; [done |]. world_simpl. done. }
  - intros Habs. destruct (dotenv_file w) as [vars |] eqn:Hd.
    + rewrite (main_startup_loaded _ _ Hd) in Hrun.
      rewrite proc_bind_eq in Hrun. unfold read_config in Hrun.
      rewrite getEnv_absent in Hrun by done. simpl in Hrun.
      injection Hrun as <- <-. split; [by left |].
      world_simpl. done.
    + unfold main_startup in Hrun. rewrite must_bind in Hrun.
      unfold godotenv_Load in Hrun. rewrite Hd in Hrun.
      injection Hrun as <- <-. split; [by right |]. world_simpl. done.
  - intros [vars Hd] Hpres.
    rewrite (main_startup_loaded _ _ Hd) in Hrun.
    destruct (getEnv_present "DATABASE_URL" "" (with_environ w env) Hpres)
      as (url & Hurl & Hne & Hget).
    exists url. split; [done |].
    rewrite proc_bind_eq in Hrun. unfold read_config in Hrun. fold env in Hrun.
    rewrite Hget in Hrun.
    destruct (String.eqb_spec url "") as [| _]; [done |].
    rewrite must_bind, NewDB_eq in Hrun. cbv zeta in Hrun. simpl databaseURL in Hrun.
    assert (Hpop : pop_fault (emit (EvConnect url) (with_environ w env))
                   = (fst (pop_fault w),
                      emit (EvConnect url) (with_environ (snd (pop_fault w)) env))).
    { unfold pop_fault. simpl. by destruct (faults w). }
    rewrite Hpop in Hrun. simpl fst in Hrun. simpl snd in Hrun.
    destruct (fst (pop_fault w)) eqn:Hp.
    + injection Hrun as <- <-. world_simpl.
      split; [done |]. split; [done | discriminate].
    + injection Hrun as <- <-. world_simpl.
      split; [done |]. split; [discriminate |]. intros _.
      match goal with |- ∃ cfg, Done (?c, _) = _ ∧ _ => exists c end.
      split; [reflexivity |]. simpl.
      split; [done |].
      split; [intros; by apply getEnv_absent |].
      split; [intros; by apply getEnv_absent |].
      split; intros; by apply getEnvInt_absent.
Qed.

Lemma startup_configuration_witness :
  let w' := snd (main_startup sample_world) in
  let r := fst (main_startup sample_world) in
  main_startup sample_world = (r, w')
  ∧ is_Some (dotenv_file sample_world)
  ∧ ¬ absent (effective_environ sample_world) "DATABASE_URL"
  ∧ connections (trace w') = ["postgres://localhost/hndshake"]
  ∧ (∃ cfg rl, r = Done (cfg, rl) ∧ port cfg = "8080" ∧ rateLimitRequests cfg = 5
               ∧ rateLimitWindowMinutes cfg = 60).
Proof.
  intros w' r.
  assert (Hpres : ¬ absent (effective_environ sample_world) "DATABASE_URL").
  { unfold absent. vm_compute. discriminate. }
  assert (Hsome : is_Some (dotenv_file sample_world)) by (by eexists).
  pose proof (startup_configuration sample_world w' r eq_refl) as (_ & H & _).
  destruct (H Hsome Hpres) as (url & Hurl & Hconn & _ & Hdone).
  destruct (Hdone eq_refl) as (cfg & Hr & _ & Hport & _ & Hreq & Hwin).
  split; [reflexivity |]. split; [exact Hsome |]. split; [exact Hpres |].
  split; [vm_compute; reflexivity |].
  exists cfg, (NewRateLimiter (rateLimitRequests cfg) (rateLimitWindowMinutes cfg)).
  split; [exact Hr |].
  split; [apply Hport; vm_compute; reflexivity |].
  split; [apply Hreq | apply Hwin]; vm_compute; reflexivity.
Defined.

(** ** The identity digest *)

Lemma be_bytes_length k x : length (Sha256.be_bytes k x) = k.
Proof. unfold Sha256.be_bytes. by rewrite length_map, length_rev, length_seq. Qed.

Lemma Sum256_length msg : length (Sha256.Sum256 msg) = 32%nat.
Proof.
  unfold Sha256.Sum256.
  destruct (fold_left Sha256.compress _ Sha256.init) as [a b c d e f g h].
  rewrite length_map, !length_app, !be_bytes_length. reflexivity.
Qed.

Lemma EncodeToString_length bs :
  String.length (Sha256.EncodeToString bs) = (2 * length bs)%nat.
Proof. induction bs as [| b bs IH]; simpl; [done |]. rewrite IH. lia. Qed.

Lemma hashIP_length ip : String.length (hashIP ip) = 64%nat.
Proof. unfold hashIP. by rewrite EncodeToString_length, Sum256_length. Qed.

Lemma nibble_cases (n : N) :
  (n < 16)%N →
  n ∈ [0; 1; 2; 3; 4; 5; 6; 7; 8; 9; 10; 11; 12; 13; 14; 15]%N.
Proof.
  intros Hn.
  destruct n as [| p]; [set_solver |].
  repeat match goal with q : positive |- _ => destruct q; try lia end; set_solver.
Qed.

Lemma unhex_hex_digit n : (n < 16)%N → unhex (Sha256.hex_digit n) = n.
Proof.
  intros Hn%nibble_cases.
  repeat (apply elem_of_cons in Hn as [-> | Hn]; [reflexivity |]).
  by apply elem_of_nil in Hn.
Qed.

Lemma hex_digit_lower n :
  (n < 16)%N → occurs (Sha256.hex_digit n) "0123456789abcdef".
Proof.
  intros Hn%nibble_cases. unfold occurs.
  repeat (apply elem_of_cons in Hn as [-> | Hn]; [vm_compute; tauto |]).
  by apply elem_of_nil in Hn.
Qed.

Lemma byte_nibbles b :
  (N_of_ascii b / 16 < 16)%N ∧ (N_of_ascii b mod 16 < 16)%N
  ∧ ascii_of_N (16 * (N_of_ascii b / 16) + N_of_ascii b mod 16) = b.
Proof.
  pose proof (N_ascii_bounded b) as Hb.
  split; [apply N.Div0.div_lt_upper_bound; lia |].
  split; [apply N.mod_lt; lia |].
  rewrite <- N.div_mod by lia. apply ascii_N_embedding.
Qed.

Lemma Decode_Encode bs : DecodeString (Sha256.EncodeToString bs) = bs.
Proof.
  induction bs as [| b bs IH]; simpl; [done |].
  destruct (byte_nibbles b) as (H1 & H2 & H3).
  by rewrite !unhex_hex_digit, H3, IH.
Qed.

Lemma EncodeToString_inj bs1 bs2 :
  Sha256.EncodeToString bs1 = Sha256.EncodeToString bs2 → bs1 = bs2.
Proof. intros H. by rewrite <- (Decode_Encode bs1), H, Decode_Encode. Qed.

Lemma EncodeToString_lower bs c :
  occurs c (Sha256.EncodeToString bs) → occurs c "0123456789abcdef".
Proof.
  unfold occurs at 1. induction bs as [| b bs IH]; simpl; [done |].
  destruct (byte_nibbles b) as (H1 & H2 & _).
  intros [<- | [<- | H]]; [by apply hex_digit_lower | by apply hex_digit_lower | auto].
Qed.

(** *** The address the digest is taken of *)

Lemma Split_go_hd cur s sep :
  hd "" (GoStrings.Split_go cur s sep) = String.rev_app cur (before sep s).
Proof.
  revert cur. induction s as [| a s IH]; intros cur; simpl; [done |].
  destruct (Ascii.eqb a sep); [done |]. by rewrite IH.
Qed.

Lemma Split_hd s sep : hd "" (GoStrings.Split s sep) = before sep s.
Proof. apply Split_go_hd. Qed.

Lemma before_spec sep s :
  ¬ occurs sep (before sep s)
  ∧ ∃ rest, s = before sep s +:+ rest ∧ (rest = "" ∨ ∃ rest', rest = String sep rest').
Proof.
  unfold occurs. induction s as [| a s [IH1 (rest & IH2 & IH3)]]; simpl.
  - split; [tauto |]. exists "". auto.
  - destruct (Ascii.eqb_spec a sep) as [-> | Hne]; simpl.
    + split; [tauto |]. exists (String sep s). eauto.
    + split; [intros [? | ?]; [congruence | tauto] |].
      exists rest. split; [| done]. by rewrite app_String, <- IH2.
Qed.

Lemma has_prefix_colon c s :
  GoStrings.has_prefix ":" (String c s) = Ascii.eqb ":"%char c.
Proof.
  change (GoStrings.has_prefix ":" (String c s))
    with (if Ascii.eqb ":"%char c then GoStrings.has_prefix "" s else false).
  by destruct (Ascii.eqb ":"%char c), s.
Qed.

Lemma LastIndex_cons c s substr :
  GoStrings.LastIndex (String c s) substr =
    if 0 <=? GoStrings.LastIndex s substr then GoStrings.LastIndex s substr + 1
    else if GoStrings.has_prefix substr (String c s) then 0 else -1.
Proof. reflexivity. Qed.

Lemma LastIndex_absent s : ¬ occurs ":"%char s → GoStrings.LastIndex s ":" = -1.
Proof.
  unfold occurs. induction s as [| c s IH]; [done |].
  intros Hn. simpl in Hn. rewrite LastIndex_cons, IH by tauto.
  change (0 <=? -1) with false. cbv iota. rewrite has_prefix_colon.
  destruct (Ascii.eqb_spec ":"%char c) as [<- | _]; [tauto | done].
Qed.

Lemma LastIndex_port host port :
  ¬ occurs ":"%char port →
  GoStrings.LastIndex (host +:+ String ":"%char port) ":" = GoStrings.len host.
Proof.
  intros Hn. unfold GoStrings.len.
  induction host as [| c host IH].
  - change ("" +:+ String ":"%char port) with (String ":"%char port).
    rewrite LastIndex_cons, (LastIndex_absent _ Hn). reflexivity.
  - rewrite app_String, LastIndex_cons, IH.
    destruct (Z.leb_spec 0 (Z.of_nat (String.length host))); simpl String.length; lia.
Qed.

Lemma strip_port host port :
  ¬ occurs ":"%char port →
  let ip := host +:+ String ":"%char port in
  let colonIndex := GoStrings.LastIndex ip ":" in
  (if negb (colonIndex =? -1) then GoStrings.slice_to ip colonIndex else ip) = host.
Proof.
  intros Hn ip colonIndex. subst colonIndex ip. rewrite (LastIndex_port _ _ Hn).
  unfold GoStrings.len, GoStrings.slice_to.
  destruct (Z.eqb_spec (Z.of_nat (String.length host)) (-1)) as [| _]; [lia |].
  simpl negb. cbv iota. rewrite Nat2Z.id. apply substring_app_l.
Qed.

Lemma getIP_cases r :
  let forwarded := Get (Header r) "X-Forwarded-For" in
  let realIP := Get (Header r) "X-Real-IP" in
  (forwarded ≠ "" → getIP r = GoStrings.TrimSpace (before ","%char forwarded))
  ∧ (forwarded = "" → realIP ≠ "" → getIP r = realIP)
  ∧ (forwarded = "" → realIP = "" →
     ∀ host port, RemoteAddr r = host +:+ String ":"%char port →
                  ¬ occurs ":"%char port → getIP r = host)
  ∧ (forwarded = "" → realIP = "" → ¬ occurs ":"%char (RemoteAddr r) →
     getIP r = RemoteAddr r).
Proof.
  intros forwarded realIP. unfold getIP. fold forwarded realIP.
  destruct (String.eqb_spec forwarded "") as [Hf | Hf]; simpl negb; cbv iota.
  - split; [done |].
    destruct (String.eqb_spec realIP "") as [Hr | Hr]; simpl negb; cbv iota.
    + split; [done |]. split.
      * intros _ _ host port -> Hn. by apply strip_port.
      * intros _ _ Hn. by rewrite (LastIndex_absent _ Hn).
    + split; [done |]. split; done.
  - split; [intros _; by rewrite Split_hd |]. repeat split; done.
Qed.

(** X23. The digest of an address is 64 lower-case hexadecimal characters;
    two addresses have the same digest exactly when SHA-256 gives their
    salted bytes the same hash (the hexadecimal text loses nothing), and the
    digest differs from every address whose length is not 64 (the digests of
    192.168.1.10 and 10.0.0.1 are the ones given).  The address is the
    first comma-separated entry of X-Forwarded-For, trimmed, when that
    header is not empty, else X-Real-IP when not empty, else the peer
    address up to its last colon, or the whole peer address when it has no
    colon. *)
Theorem identity_digest (r : Request) (a b : string) :
  (a = b → hashIP a = hashIP b)
  ∧ (hashIP a = hashIP b ↔ Sha256.Sum256 (a +:+ salt) = Sha256.Sum256 (b +:+ salt))
  ∧ String.length (hashIP a) = 64%nat
  ∧ (∀ c, occurs c (hashIP a) → occurs c "0123456789abcdef")
  ∧ (String.length a ≠ 64%nat → hashIP a ≠ a)
  ∧ hashIP "192.168.1.10" = "65a11884b67173443df0ad12d213961459a67c8a05cfbcc3a56603c598900a41"
  ∧ hashIP "10.0.0.1" = "a4600e9c2d0e6ce6c61320171c0e9e3f40bab996c5f4f07c835af3366a1bafff"
  ∧ (let forwarded := Get (Header r) "X-Forwarded-For" in
     let realIP := Get (Header r) "X-Real-IP" in
     (forwarded ≠ "" → getIP r = GoStrings.TrimSpace (before ","%char forwarded))
     ∧ (¬ occurs ","%char (before ","%char forwarded)
        ∧ ∃ rest, forwarded = before ","%char forwarded +:+ rest
                  ∧ (rest = "" ∨ ∃ rest', rest = String ","%char rest'))
     ∧ (forwarded = "" → realIP ≠ "" → getIP r = realIP)
     ∧ (forwarded = "" → realIP = "" →
        ∀ host port, RemoteAddr r = host +:+ String ":"%char port →
                     ¬ occurs ":"%char port → getIP r = host)
     ∧ (forwarded = "" → realIP = "" → ¬ occurs ":"%char (RemoteAddr r) →
        getIP r = RemoteAddr r)).
Proof.
  split; [by intros -> |].
  split.
  { unfold hashIP. split; [apply EncodeToString_inj | by intros ->]. }
  split; [apply hashIP_length |].
  split; [intros c; apply EncodeToString_lower |].
  split.
  { intros Hlen Heq. apply Hlen. rewrite <- Heq at 1. apply hashIP_length. }
  split; [vm_compute; reflexivity |].
  split; [vm_compute; reflexivity |].
  destruct (getIP_cases r) as (H1 & H2 & H3 & H4).
  split; [exact H1 |]. split; [apply before_spec |].
  split; [exact H2 |]. split; [exact H3 | exact H4].
Qed.

Lemma identity_digest_witness :
  let r := sample_request " 203.0.113.7 , 10.0.0.1" "hello" in
  Get (Header r) "X-Forwarded-For" ≠ ""
  ∧ getIP r = "203.0.113.7"
  ∧ String.length "10.0.0.1" ≠ 64%nat
  ∧ hashIP "10.0.0.1" ≠ "10.0.0.1"
  ∧ String.length (hashIP "10.0.0.1") = 64%nat.
Proof.
  intros r.
  pose proof (identity_digest r "10.0.0.1" "10.0.0.1") as H. cbv zeta in H.
  destruct H as (_ & _ & Hlen & _ & Hne & _ & _ & Hip & _).
  assert (Hfw : Get (Header r) "X-Forwarded-For" ≠ "") by (vm_compute; discriminate).
  assert (Hl : String.length "10.0.0.1" ≠ 64%nat) by (vm_compute; discriminate).
  split; [exact Hfw |].
  split; [etrans; [exact (Hip Hfw) |]; vm_compute; reflexivity |].
  split; [exact Hl |]. split; [exact (Hne Hl) | exact Hlen].
Defined.

(* ===================================================================== *)
(** * Further properties of the backend *)
(* ===================================================================== *)

(** ** What a request does to the store *)

Lemma pop_fault_clock w : clock (snd (pop_fault w)) = clock w.
Proof. apply pop_fault_frame. Qed.

Lemma hashIP_nonempty ip : hashIP ip ≠ "".
Proof. intros H. pose proof (hashIP_length ip) as Hl. by rewrite H in Hl. Qed.

Lemma stored_ipHash_WithValue r ipHash :
  ipHash ≠ "" → stored_ipHash (WithValue r ipHashKey ipHash) = ipHash.
Proof.
  intros Hne. unfold stored_ipHash, IPHashFromContext, WithValue. simpl.
  rewrite lookup_insert_eq. by destruct (String.eqb_spec ipHash "").
Qed.

(** The row [CreatePost] inserts for request [req] in world [w]. *)
Lemma CreatePost_cases r w resp w' :
  CreatePost r w = (resp, w') →
  clock w' = clock w ∧ schema_migrations (store w') = schema_migrations (store w)
  ∧ ((store w' = store w ∧ Status resp ≠ StatusCreated)
     ∨ ∃ req,
         Body r = Some req ∧ validateCreatePostRequest req = None
         ∧ fst (pop_fault w) = false
         ∧ resp = respondWithJSON StatusCreated
                    (JsonPost (fst (insert_post req (stored_ipHash r) w)))
         ∧ store w' = store (snd (insert_post req (stored_ipHash r) w))).
Proof.
  unfold CreatePost. fold (stored_ipHash r).
  destruct (pop_fault_frame w) as (Hs & Hc & _).
  destruct (Body r) as [req |]; [| by intros [= <- <-]; auto].
  destruct (validateCreatePostRequest req) eqn:Hv; [by intros [= <- <-]; auto |].
  unfold DB_CreatePost, db_call, insert_post.
  destruct (pop_fault w) as [[] w0]; simpl in *.
  - intros [= <- <-]. simpl. rewrite Hs, Hc. auto.
  - intros [= <- <-]. simpl. rewrite Hs, Hc. split; [done |]. split; [done |].
    right. exists req. done.
Qed.

Lemma GetPosts_cases r w : 
  clock (snd (GetPosts r w)) = clock w ∧ store (snd (GetPosts r w)) = store w
  ∧ Status (fst (GetPosts r w)) ≠ StatusCreated.
Proof.
  unfold GetPosts, DB_GetPosts, db_call.
  destruct (pop_fault_frame w) as (Hs & Hc & _).
  destruct (pop_fault w) as [[] w0]; simpl in *; by rewrite Hs, Hc.
Qed.

Lemma GetEvents_cases r w : 
  clock (snd (GetEvents r w)) = clock w ∧ store (snd (GetEvents r w)) = store w
  ∧ Status (fst (GetEvents r w)) ≠ StatusCreated.
Proof.
  unfold GetEvents, DB_GetEvents, db_call.
  destruct (pop_fault_frame w) as (Hs & Hc & _).
  destruct (pop_fault w) as [[] w0]; simpl in *; by rewrite Hs, Hc.
Qed.

(** The router changes the store only by the insertion of [CreatePost], on
    POST /api/posts. *)
Lemma mux_cases r w resp w' :
  mux r w = (resp, w') →
  clock w' = clock w ∧ schema_migrations (store w') = schema_migrations (store w)
  ∧ ((store w' = store w ∧ Status resp ≠ StatusCreated)
     ∨ (Method r = "POST" ∧ Path r = "/api/posts"
        ∧ ∃ req,
            Body r = Some req ∧ validateCreatePostRequest req = None
            ∧ fst (pop_fault w) = false
            ∧ resp = respondWithJSON StatusCreated
                       (JsonPost (fst (insert_post req (stored_ipHash r) w)))
            ∧ store w' = store (snd (insert_post req (stored_ipHash r) w)))).
Proof.
  unfold mux.
  pose proof (GetPosts_cases r w) as (G1 & G2 & G3).
  pose proof (GetEvents_cases r w) as (E1 & E2 & E3).
  destruct (String.eqb_spec (Path r) "/api/posts") as [HP | _].
  - destruct (String.eqb_spec (Method r) "GET") as [_ | _].
    { intros H. rewrite H in *. simpl in *. rewrite G1, G2. auto. }
    destruct (String.eqb_spec (Method r) "POST") as [HM | _].
    { intros H. apply CreatePost_cases in H as (H1 & H2 & [H3 | H3]); auto 10. }
    destruct (String.eqb (Method r) "OPTIONS"); intros [= <- <-]; auto.
  - destruct (String.eqb (Path r) "/api/events").
    { destruct (String.eqb (Method r) "GET").
      { intros H. rewrite H in *. simpl in *. rewrite E1, E2. auto. }
      destruct (String.eqb (Method r) "OPTIONS"); intros [= <- <-]; auto. }
    destruct (String.eqb (Path r) "/health"); intros [= <- <-]; auto.
Qed.

(** The rate limiter adds no write of its own, and on an admitted POST the
    digest in the context is the one it counted. *)
Lemma Limit_cases rl r w resp w' :
  Limit rl mux r w = (resp, w') →
  clock w' = clock w ∧ schema_migrations (store w') = schema_migrations (store w)
  ∧ ((store w' = store w ∧ Status resp ≠ StatusCreated)
     ∨ (Method r = "POST" ∧ Path r = "/api/posts"
        ∧ post_count (hashIP (getIP r)) (windowMinutes rl) w < requestLimit rl
        ∧ ∃ req,
            Body r = Some req ∧ validateCreatePostRequest req = None
            ∧ resp = respondWithJSON StatusCreated
                       (JsonPost (fst (insert_post req (hashIP (getIP r)) w)))
            ∧ store w' = store (snd (insert_post req (hashIP (getIP r)) w)))).
Proof.
  destruct (String.eqb_spec (Method r) "POST") as [HM | HM].
  2: { unfold Limit. destruct (String.eqb_spec (Method r) "POST") as [| _]; [done |].
       simpl. intros Hmux.
       apply mux_cases in Hmux as (H1 & H2 & [H3 | (H3 & _)]); auto. done. }
  rewrite (Limit_post _ _ _ _ HM), count_query_cases.
  destruct (pop_fault_frame w) as (Hs & Hc & _).
  destruct (fst (pop_fault w)) eqn:Hp.
  { intros [= <- <-]. rewrite Hs, Hc. auto. }
  rewrite (post_count_frame _ _ w _ Hs Hc).
  destruct (Z.leb_spec (requestLimit rl) (post_count (hashIP (getIP r)) (windowMinutes rl) w)).
  { intros [= <- <-]. rewrite Hs, Hc. auto. }
  intros Hmux. apply mux_cases in Hmux as (H1 & H2 & H3).
  rewrite Hs, Hc in *. split; [done |]. split; [done |].
  destruct H3 as [H3 | (_ & HP & req & HB & HV & Hp' & -> & Hst)]; [by left |].
  right. split; [done |]. split; [exact HP |]. split; [done |].
  exists req. rewrite stored_ipHash_WithValue in * by apply hashIP_nonempty.
  assert (Hins : ∀ h, insert_post req h (snd (pop_fault w)) =
                      (fst (insert_post req h w),
                       with_store (snd (pop_fault w)) (store (snd (insert_post req h w))))).
  { intros h. unfold insert_post. simpl. by rewrite Hs, Hc. }
  rewrite Hins in *. simpl in *. done.
Qed.

(** ** The identity a post is recorded under *)

(** X1. A post created through the rate limiter is stored under the digest
    the limiter counted, hashIP (getIP r), and only when that digest was
    below the limit; the row takes the next id and the current instant. *)
Theorem limited_post_identity (rl : RateLimiter) (r : Request) (w w' : World)
    (resp : Response) :
  Limit rl mux r w = (resp, w') →
  Status resp = StatusCreated →
  ∃ post,
    resp = respondWithJSON StatusCreated (JsonPost post)
    ∧ posts (store w')
      = posts (store w) ++ [{| row_post := post; ip_hash := hashIP (getIP r) |}]
    ∧ post_count (hashIP (getIP r)) (windowMinutes rl) w < requestLimit rl
    ∧ Post.ID post = next_id (store w)
    ∧ Post.CreatedAt post = clock w.
Proof.
  intros H Hst. apply Limit_cases in H as (_ & _ & [[_ Hne] | H]); [done |].
  destruct H as (_ & _ & Hlt & req & _ & _ & -> & Hs).
  eexists. split; [reflexivity |]. rewrite Hs. simpl. auto.
Qed.

Lemma limited_post_identity_witness :
  let rl := NewRateLimiter 5 60 in
  let r := sample_request "203.0.113.7, 10.1.1.1" "hello" in
  let w' := snd (Limit rl mux r sample_world) in
  let resp := fst (Limit rl mux r sample_world) in
  Limit rl mux r sample_world = (resp, w')
  ∧ Status resp = StatusCreated
  ∧ map ip_hash (posts (store w')) = [hashIP "203.0.113.7"].
Proof.
  intros rl r w' resp.
  assert (Hst : Status resp = StatusCreated) by (vm_compute; reflexivity).
  destruct (limited_post_identity rl r sample_world w' resp eq_refl Hst)
    as (post & _ & Hposts & _).
  split; [reflexivity |]. split; [exact Hst |].
  rewrite Hposts. vm_compute. reflexivity.
Defined.

(** X2. Called without the rate limiter in front (no digest in the
    context), CreatePost records the digest of the peer address alone, cut at
    its last colon, whatever the proxy headers say; this is the digest the
    limiter would count when both proxy headers are empty. *)
Theorem direct_post_identity (r : Request) :
  Context r !! ipHashKey = None →
  stored_ipHash r = computeIPHash r
  ∧ (∀ host port, RemoteAddr r = host +:+ String ":"%char port →
                  ¬ occurs ":"%char port → computeIPHash r = hashIP host)
  ∧ (Get (Header r) "X-Forwarded-For" = "" → Get (Header r) "X-Real-IP" = "" →
     computeIPHash r = hashIP (getIP r)).
Proof.
  intros Hctx. split.
  { unfold stored_ipHash, IPHashFromContext. by rewrite Hctx. }
  split.
  { intros host port Haddr Hn. unfold computeIPHash. rewrite Haddr.
    f_equal. by apply strip_port. }
  intros Hf Hr. unfold computeIPHash, getIP. by rewrite Hf, Hr.
Qed.

Lemma direct_post_identity_witness :
  let r := sample_request "203.0.113.7" "hello" in
  Context r !! ipHashKey = None
  ∧ stored_ipHash r = hashIP "10.0.0.1"
  ∧ hashIP (getIP r) = hashIP "203.0.113.7".
Proof.
  intros r.
  assert (Hctx : Context r !! ipHashKey = None) by reflexivity.
  destruct (direct_post_identity r Hctx) as (H1 & H2 & _).
  split; [exact Hctx |]. split.
  - rewrite H1. apply (H2 "10.0.0.1" "5555"); [reflexivity |].
    unfold occurs. vm_compute. intuition discriminate.
  - vm_compute. reflexivity.
Defined.

Lemma before_absent sep s : ¬ occurs sep s → before sep s = s.
Proof.
  unfold occurs. induction s as [| a s IH]; simpl; [done |].
  intros Hn. destruct (Ascii.eqb_spec a sep) as [-> | _]; [tauto |].
  rewrite IH; tauto.
Qed.

Lemma Get_with_header r key value : Get (Header (with_header r key value)) key = value.
Proof. unfold Get, with_header. simpl. by rewrite lookup_insert_eq. Qed.

Lemma filter_none {A} (P : A → Prop) `{∀ x, Decision (P x)} (l : list A) :
  (∀ x, x ∈ l → ¬ P x) → filter P l = [].
Proof.
  induction l as [| x l IH]; intros Hall; [done |].
  rewrite filter_cons_False by (apply Hall; by left).
  apply IH. intros y Hy. apply Hall. by right.
Qed.

Lemma post_count_absent ipHash wm w :
  (∀ row, row ∈ posts (store w) → ip_hash row ≠ ipHash) → post_count ipHash wm w = 0.
Proof.
  intros Hall. unfold post_count.
  rewrite filter_none; [done |]. intros row Hrow Hin.
  apply in_window_spec in Hin as [? _]. by apply (Hall row).
Qed.

(** X3. The caller chooses the identity it is counted under: a non-empty
    X-Forwarded-For value without comma or surrounding white space is taken
    as the address, whatever the peer address and X-Real-IP; so a POST
    carrying an address under which the store holds no post is admitted
    whenever the limit is positive. *)
Theorem forwarded_header_sets_identity (rl : RateLimiter) (next : Handler)
    (r : Request) (addr : string) (w : World) :
  addr ≠ "" → ¬ occurs ","%char addr → GoStrings.TrimSpace addr = addr →
  let r' := with_header r "X-Forwarded-For" addr in
  getIP r' = addr
  ∧ (Method r = "POST" → 0 < requestLimit rl → fst (pop_fault w) = false →
     (∀ row, row ∈ posts (store w) → ip_hash row ≠ hashIP addr) →
     Limit rl next r' w = next (WithValue r' ipHashKey (hashIP addr)) (snd (pop_fault w))).
Proof.
  intros Hne Hcomma Htrim r'.
  assert (Hip : getIP r' = addr).
  { destruct (getIP_cases r') as (H1 & _). subst r'.
    rewrite Get_with_header in H1. rewrite (H1 Hne), before_absent; done. }
  split; [exact Hip |].
  intros HM Hlim Hp Hfresh.
  rewrite (Limit_post rl next r' w HM), count_query_cases, Hp, Hip.
  rewrite post_count_absent by (intros row; rewrite pop_fault_store; apply Hfresh).
  by destruct (Z.leb_spec (requestLimit rl) 0); [lia |].
Qed.

Lemma forwarded_header_sets_identity_witness :
  let r := sample_request "203.0.113.7" "hello" in
  let r' := with_header r "X-Forwarded-For" "198.51.100.9" in
  getIP r' = "198.51.100.9"
  ∧ Status (fst (Limit (NewRateLimiter 5 60) mux r busy_world)) = StatusTooManyRequests
  ∧ Status (fst (Limit (NewRateLimiter 5 60) mux r' busy_world)) = StatusCreated.
Proof.
  intros r r'.
  assert (H1 : "198.51.100.9" ≠ "") by discriminate.
  assert (H2 : ¬ occurs ","%char "198.51.100.9").
  { unfold occurs. vm_compute. intuition discriminate. }
  assert (H3 : GoStrings.TrimSpace "198.51.100.9" = "198.51.100.9") by (vm_compute; reflexivity).
  destruct (forwarded_header_sets_identity (NewRateLimiter 5 60) mux r "198.51.100.9"
              busy_world H1 H2 H3) as [Hip Hadm].
  split; [exact Hip |]. split; [vm_compute; reflexivity |].
  assert (Hfresh : ∀ row, row ∈ posts (store busy_world) →
                          ip_hash row ≠ hashIP "198.51.100.9").
  { apply Forall_forall. apply (bool_decide_unpack _). vm_compute. exact I. }
  cbv zeta in Hadm. subst r'.
  rewrite (Hadm eq_refl ltac:(simpl; lia) ltac:(vm_compute; reflexivity) Hfresh).
  vm_compute. reflexivity.
Defined.

(** ** Edges of the configured limit and window *)

Lemma post_count_nonneg ipHash wm w : 0 ≤ post_count ipHash wm w.
Proof. unfold post_count. lia. Qed.

(** X4. With a configured limit of zero or less the write path is closed:
    every POST is answered 429 (500 when the count query fails) and the
    wrapped handler never runs. *)
Theorem nonpositive_limit_rejects (rl : RateLimiter) (next : Handler)
    (r : Request) (w : World) :
  requestLimit rl ≤ 0 → Method r = "POST" →
  Limit rl next r w =
    (if fst (pop_fault w)
     then http_Error "Internal server error" StatusInternalServerError
     else rate_limit_response rl,
     snd (pop_fault w)).
Proof.
  intros Hlim HM. rewrite (Limit_post _ _ _ _ HM), count_query_cases.
  destruct (fst (pop_fault w)); [done |].
  pose proof (post_count_nonneg (hashIP (getIP r)) (windowMinutes rl) (snd (pop_fault w))).
  by destruct (Z.leb_spec (requestLimit rl)
                 (post_count (hashIP (getIP r)) (windowMinutes rl) (snd (pop_fault w))));
    [| lia].
Qed.

Lemma nonpositive_limit_rejects_witness :
  Status (fst (Limit (NewRateLimiter 0 60) mux (sample_request "203.0.113.7" "hello")
                 sample_world)) = StatusTooManyRequests.
Proof.
  rewrite (nonpositive_limit_rejects (NewRateLimiter 0 60) mux
             (sample_request "203.0.113.7" "hello") sample_world);
    [reflexivity | simpl; lia | reflexivity].
Defined.

(** X5. With a configured window of zero minutes or less, and no post
    dated after the current instant, nothing is counted: every POST whose
    count query answers is admitted, provided the limit is positive. *)
Theorem nonpositive_window_admits (rl : RateLimiter) (next : Handler)
    (r : Request) (w : World) :
  windowMinutes rl ≤ 0 → 0 < requestLimit rl →
  none_after (clock w) (store w) →
  Method r = "POST" → fst (pop_fault w) = false →
  (∀ ipHash, post_count ipHash (windowMinutes rl) w = 0)
  ∧ Limit rl next r w
    = next (WithValue r ipHashKey (hashIP (getIP r))) (snd (pop_fault w)).
Proof.
  intros Hwin Hlim Hpast HM Hp.
  assert (Hzero : ∀ ipHash, post_count ipHash (windowMinutes rl) w = 0).
  { intros ipHash. unfold post_count.
    rewrite filter_none; [done |]. intros row Hrow Hin.
    apply in_window_spec in Hin as [_ Hin].
    unfold none_after in Hpast. rewrite Forall_forall in Hpast.
    specialize (Hpast row Hrow). unfold minute in *. nia. }
  split; [exact Hzero |].
  rewrite (Limit_post _ _ _ _ HM), count_query_cases, Hp.
  rewrite (post_count_frame _ _ w) by apply pop_fault_frame.
  rewrite Hzero. by destruct (Z.leb_spec (requestLimit rl) 0); [lia |].
Qed.

Lemma nonpositive_window_admits_witness :
  let w := with_clock busy_world (61 * minute) in
  none_after (clock w) (store w)
  ∧ Status (fst (Limit (NewRateLimiter 5 0) mux (sample_request "203.0.113.7" "hello") w))
    = StatusCreated.
Proof.
  intros w.
  assert (Hpast : none_after (clock w) (store w)).
  { unfold none_after. apply (bool_decide_unpack _). vm_compute. exact I. }
  split; [exact Hpast |].
  destruct (nonpositive_window_admits (NewRateLimiter 5 0) mux
              (sample_request "203.0.113.7" "hello") w) as [_ ->];
    [simpl; lia | simpl; lia | exact Hpast | reflexivity | reflexivity |].
  vm_compute. reflexivity.
Defined.

(** X6. Requests other than POST are never rate limited and never write:
    the limiter hands them to the router as they are, and the router leaves
    the store as it is, whether the store answers or not. *)
Theorem reads_never_limited_nor_write (rl : RateLimiter) (r : Request) (w : World) :
  Method r ≠ "POST" →
  Limit rl mux r w = mux r w
  ∧ store (snd (mux r w)) = store w
  ∧ Status (fst (mux r w)) ≠ StatusTooManyRequests.
Proof.
  intros HM. split.
  { unfold Limit. by destruct (String.eqb_spec (Method r) "POST"). }
  split; [| apply mux_not_429].
  destruct (mux r w) as [resp w'] eqn:H.
  apply mux_cases in H as (_ & _ & [[? _] | (? & _)]); done.
Qed.

Lemma reads_never_limited_nor_write_witness :
  let r := {| Method := "GET"; Path := "/api/posts"; Header := ∅; Query := ∅;
              RemoteAddr := "10.0.0.1:5555"; Body := None; Context := ∅ |} in
  Method r ≠ "POST"
  ∧ Status (fst (Limit (NewRateLimiter 0 60) mux r busy_world)) = StatusOK
  ∧ store (snd (Limit (NewRateLimiter 0 60) mux r busy_world)) = store busy_world.
Proof.
  intros r.
  assert (HM : Method r ≠ "POST") by discriminate.
  destruct (reads_never_limited_nor_write (NewRateLimiter 0 60) r busy_world HM)
    as (-> & Hs & _).
  split; [exact HM |]. split; [vm_compute; reflexivity | exact Hs].
Defined.

(** ** Invariants of sequential service *)

Lemma filter_length_mono {A} (P Q : A → Prop) `{∀ x, Decision (P x)}
    `{∀ x, Decision (Q x)} (l : list A) :
  (∀ x, P x → Q x) → (length (filter P l) ≤ length (filter Q l))%nat.
Proof.
  intros HPQ. induction l as [| x l IH]; [done |].
  rewrite !filter_cons. destruct (decide (P x)) as [HP | HP].
  - rewrite decide_True by auto. simpl. lia.
  - destruct (decide (Q x)); simpl; lia.
Qed.

Lemma post_count_later ipHash wm w w' :
  store w' = store w → clock w ≤ clock w' →
  post_count ipHash wm w' ≤ post_count ipHash wm w.
Proof.
  intros Hs Hc. unfold post_count. rewrite Hs.
  apply inj_le, filter_length_mono. intros row.
  rewrite !in_window_spec. intros [? ?]. split; [done | lia].
Qed.

Lemma post_count_insert ipHash' wm req ipHash w w' :
  store w' = store (snd (insert_post req ipHash w)) → clock w' = clock w →
  post_count ipHash' wm w' ≤ post_count ipHash' wm w + 1
  ∧ (ipHash' ≠ ipHash → post_count ipHash' wm w' = post_count ipHash' wm w).
Proof.
  intros Hs Hc. unfold post_count. rewrite Hs, Hc. simpl.
  rewrite filter_app, length_app.
  rewrite filter_cons, filter_nil. split.
  - case_decide; simpl; lia.
  - intros Hne. rewrite decide_False; [simpl; lia |].
    rewrite in_window_spec. simpl. intros [? _]. congruence.
Qed.

Lemma serve_cons (h : Handler) t r rs w :
  serve h ((t, r) :: rs) w =
    (fst (h r (with_clock w t)) :: fst (serve h rs (snd (h r (with_clock w t)))),
     snd (serve h rs (snd (h r (with_clock w t))))).
Proof.
  simpl. destruct (h r (with_clock w t)) as [resp w1]. simpl.
  by destruct (serve h rs w1).
Qed.

Lemma Limit_within_limit rl r w resp w' :
  Limit rl mux r w = (resp, w') → within_limit rl w → within_limit rl w'.
Proof.
  intros H Hcap ipHash.
  apply Limit_cases in H as (Hc & _ & [[Hs _] | (_ & _ & Hlt & req & _ & _ & _ & Hs)]).
  - by rewrite (post_count_frame _ _ w w').
  - destruct (post_count_insert ipHash (windowMinutes rl) _ _ _ _ Hs Hc) as [Hle Heq].
    destruct (decide (ipHash = hashIP (getIP r))) as [-> | Hne].
    + lia.
    + rewrite (Heq Hne). apply Hcap.
Qed.

(** X7. Served one request after the other, in the order of their
    instants, the rate limiter is a hard cap: if no digest has more posts in
    the trailing window than the limit, this still holds after any number of
    requests, of any kind, whatever calls to the store fail. *)
Theorem sequential_hard_cap (rl : RateLimiter) (rs : list (Z * Request)) (w : World) :
  chronological (clock w) rs →
  within_limit rl w →
  within_limit rl (snd (serve (Limit rl mux) rs w)).
Proof.
  revert w. induction rs as [| [t r] rs IH]; intros w Hchron Hcap; [done |].
  destruct Hchron as [Ht Hchron]. rewrite serve_cons. simpl snd.
  destruct (Limit rl mux r (with_clock w t)) as [resp w1] eqn:HL. simpl snd.
  assert (Hcap_t : within_limit rl (with_clock w t)).
  { intros ipHash. etrans; [| apply (Hcap ipHash)]. by apply post_count_later. }
  pose proof (Limit_within_limit _ _ _ _ _ HL Hcap_t) as Hcap1.
  apply Limit_cases in HL as (Hc & _). simpl in Hc.
  apply IH; [by rewrite Hc | done].
Qed.

Lemma sequential_hard_cap_witness :
  let rl := NewRateLimiter 5 60 in
  let w' := snd (serve (Limit rl mux) sample_traffic sample_world) in
  chronological (clock sample_world) sample_traffic
  ∧ within_limit rl sample_world
  ∧ post_count (hashIP "203.0.113.7") (windowMinutes rl) w' ≤ requestLimit rl
  ∧ post_count (hashIP "203.0.113.7") 60 w' = 5.
Proof.
  intros rl w'.
  assert (Hchron : chronological (clock sample_world) sample_traffic).
  { vm_compute. intuition discriminate. }
  assert (Hcap : within_limit rl sample_world).
  { intros ipHash. unfold post_count. simpl. lia. }
  pose proof (sequential_hard_cap rl sample_traffic sample_world Hchron Hcap
                (hashIP "203.0.113.7")) as Hle.
  split; [exact Hchron |]. split; [exact Hcap |]. split; [exact Hle |].
  vm_compute. reflexivity.
Defined.

Lemma Limit_store_shape rl r w resp w' :
  Limit rl mux r w = (resp, w') →
  clock w' = clock w
  ∧ (store w' = store w
     ∨ ∃ row, posts (store w') = posts (store w) ++ [row]
              ∧ next_id (store w') = next_id (store w) + 1
              ∧ Post.ID (row_post row) = next_id (store w)
              ∧ Post.CreatedAt (row_post row) = clock w).
Proof.
  intros H.
  apply Limit_cases in H as (Hc & _ & [[Hs _] | (_ & _ & _ & req & _ & _ & _ & Hs)]).
  - auto.
  - split; [done |]. right. rewrite Hs. simpl. eauto.
Qed.

(** X8. Sequential service keeps the store well formed: post ids stay
    below the sequence and pairwise distinct, no post is dated after the
    current instant, and posts stay listed in the order of their dates. *)
Theorem sequential_store_invariant (rl : RateLimiter) (rs : list (Z * Request))
    (w : World) :
  chronological (clock w) rs →
  ids_fresh (store w) → none_after (clock w) (store w) → dated_in_order (store w) →
  let w' := snd (serve (Limit rl mux) rs w) in
  ids_fresh (store w') ∧ none_after (clock w') (store w') ∧ dated_in_order (store w').
Proof.
  revert w. induction rs as [| [t r] rs IH]; intros w Hchron Hids Hpast Hord; [done |].
  destruct Hchron as [Ht Hchron]. rewrite serve_cons. simpl snd.
  destruct (Limit rl mux r (with_clock w t)) as [resp w1] eqn:HL. simpl snd.
  apply Limit_store_shape in HL as (Hc & Hshape). simpl in Hc, Hshape.
  assert (Hpast_t : Forall (λ row, Post.CreatedAt (row_post row) ≤ t) (posts (store w))).
  { eapply Forall_impl; [exact Hpast |]. simpl. intros. lia. }
  apply IH; [by rewrite Hc | ..];
    destruct Hshape as [Hs | (row & Hposts & Hnext & Hid & Hat)].
  - by rewrite Hs.
  - destruct Hids as [Hlt Hnd]. unfold ids_fresh. rewrite Hposts, Hnext. split.
    + apply Forall_app. split.
      * eapply Forall_impl; [exact Hlt |]. simpl. intros. lia.
      * repeat constructor. lia.
    + change (NoDup ((λ row, Post.ID (row_post row)) <$> posts (store w) ++ [row])).
      rewrite fmap_app. apply NoDup_app. split; [done |]. split.
      * intros x (row' & Hx & Hin)%list_elem_of_fmap Hx'.
        apply list_elem_of_singleton in Hx'.
        rewrite Forall_forall in Hlt. specialize (Hlt row' Hin). simpl in Hlt. lia.
      * apply NoDup_singleton.
  - unfold none_after. by rewrite Hs, Hc.
  - unfold none_after. rewrite Hposts, Hc. apply Forall_app. split; [done |].
    repeat constructor. lia.
  - unfold dated_in_order. by rewrite Hs.
  - unfold dated_in_order. rewrite Hposts. apply StronglySorted_app_2; [| done |].
    + intros a b Ha Hb. apply list_elem_of_singleton in Hb as ->.
      rewrite Forall_forall in Hpast_t. rewrite Hat. by apply Hpast_t.
    + repeat constructor.
Qed.

Lemma sequential_store_invariant_witness :
  let w' := snd (serve (Limit (NewRateLimiter 5 60) mux) sample_traffic sample_world) in
  chronological (clock sample_world) sample_traffic
  ∧ ids_fresh (store w')
  ∧ map (λ row, Post.ID (row_post row)) (posts (store w')) = [1; 2; 3; 4; 5; 6].
Proof.
  intros w'.
  assert (Hchron : chronological (clock sample_world) sample_traffic).
  { vm_compute. intuition discriminate. }
  destruct (sequential_store_invariant (NewRateLimiter 5 60) sample_traffic sample_world
              Hchron) as (Hids & _).
  - split; [constructor | constructor].
  - constructor.
  - constructor.
  - split; [exact Hchron |]. split; [exact Hids |]. vm_compute. reflexivity.
Defined.

(** ** Listings *)

Global Instance newer_first_trans : Transitive newer_first.
Proof. intros a b c. unfold newer_first. lia. Qed.

Global Instance newer_first_total : Total newer_first.
Proof. intros a b. unfold newer_first. lia. Qed.

Lemma select_posts_eq eventFilter limit offset w :
  select_posts eventFilter limit offset w =
    take (Z.to_nat limit) (drop (Z.to_nat offset)
      (merge_sort newer_first (matching_posts eventFilter w))).
Proof. reflexivity. Qed.

Lemma matching_posts_spec eventFilter w p :
  p ∈ matching_posts eventFilter w ↔
  (∃ row, row ∈ posts (store w) ∧ row_post row = p)
  ∧ (eventFilter ≠ "" → Post.EventName p = eventFilter).
Proof.
  unfold matching_posts.
  change (map row_post (posts (store w))) with (row_post <$> posts (store w)).
  destruct (String.eqb_spec eventFilter "") as [-> | Hne].
  - rewrite list_elem_of_fmap. split.
    + intros (row & -> & Hin). split; [eauto | done].
    + intros [(row & Hin & <-) _]. eauto.
  - rewrite list_elem_of_filter, list_elem_of_fmap. split.
    + intros [He (row & -> & Hin)]. eauto.
    + intros [(row & Hin & <-) He]. split; [auto | eauto].
Qed.

Lemma StronglySorted_sublist {A} (R : relation A) (l1 l2 : list A) :
  l1 `sublist_of` l2 → StronglySorted R l2 → StronglySorted R l1.
Proof.
  induction 1 as [| x l1 l2 Hsub IH | x l1 l2 Hsub IH]; [done | |].
  - intros [Hall Hs]%StronglySorted_cons. apply StronglySorted_cons. split; [| auto].
    rewrite Forall_forall in *. intros y Hy. apply Hall. by apply (sublist_subseteq _ _ Hsub).
  - intros [_ Hs]%StronglySorted_cons. auto.
Qed.

Lemma select_posts_sublist eventFilter limit offset w :
  select_posts eventFilter limit offset w
  `sublist_of` merge_sort newer_first (matching_posts eventFilter w).
Proof.
  rewrite select_posts_eq. etrans; [apply sublist_take | apply sublist_drop].
Qed.

(** X9. A listing that succeeds returns stored posts only, all of the
    requested event when one is requested, newest first, and no more than
    the effective limit; when the store fails the reply is 500 "Failed to
    retrieve posts". *)
Theorem listing_shape (r : Request) (w : World) :
  let eventFilter := Get (Query r) "event" in
  (fst (pop_fault w) = true →
   fst (GetPosts r w) = respondWithError StatusInternalServerError "Failed to retrieve posts")
  ∧ (fst (pop_fault w) = false →
     ∃ ps, fst (GetPosts r w) = respondWithJSON StatusOK (JsonPosts ps)
       ∧ Z.of_nat (length ps) ≤ parseLimit (Get (Query r) "limit")
       ∧ StronglySorted newer_first ps
       ∧ ∀ p, p ∈ ps →
           (∃ row, row ∈ posts (store w) ∧ row_post row = p)
           ∧ (eventFilter ≠ "" → Post.EventName p = eventFilter)).
Proof.
  intros eventFilter. unfold GetPosts, DB_GetPosts, db_call. fold eventFilter.
  pose proof (pop_fault_store w) as Hs.
  destruct (pop_fault w) as [[] w0]; simpl in *; split; try done.
  intros _. eexists. split; [reflexivity |].
  pose proof (select_posts_sublist eventFilter (parseLimit (Get (Query r) "limit"))
                (parseOffset (Get (Query r) "offset")) w0) as Hsub.
  split.
  { pose proof (select_posts_length eventFilter (parseLimit (Get (Query r) "limit"))
                  (parseOffset (Get (Query r) "offset")) w0).
    pose proof (parseLimit_range (Get (Query r) "limit")). lia. }
  split.
  { eapply StronglySorted_sublist; [exact Hsub |].
    apply StronglySorted_merge_sort; apply _. }
  intros p Hp. apply (sublist_subseteq _ _ Hsub) in Hp.
  rewrite merge_sort_Permutation in Hp.
  apply matching_posts_spec in Hp. by rewrite Hs in Hp.
Qed.

(** X10. A listing without offset returns every matching post, once each,
    when they number no more than the effective limit. *)
Theorem listing_complete (r : Request) (w : World) (ps : list Post.t) :
  fst (GetPosts r w) = respondWithJSON StatusOK (JsonPosts ps) →
  parseOffset (Get (Query r) "offset") = 0 →
  Z.of_nat (length (matching_posts (Get (Query r) "event") w))
    ≤ parseLimit (Get (Query r) "limit") →
  ps ≡ₚ matching_posts (Get (Query r) "event") w.
Proof.
  unfold GetPosts, DB_GetPosts, db_call.
  pose proof (pop_fault_store w) as Hs.
  destruct (pop_fault w) as [[] w0]; simpl in *; [discriminate |].
  intros [= <-] Hoff Hlen. rewrite select_posts_eq, Hoff.
  change (Z.to_nat 0) with 0%nat. rewrite drop_0.
  assert (Hm : matching_posts (Get (Query r) "event") w0
               = matching_posts (Get (Query r) "event") w).
  { unfold matching_posts. by rewrite Hs. }
  rewrite Hm, take_ge; [apply merge_sort_Permutation |].
  rewrite merge_sort_Permutation. lia.
Qed.

Lemma listing_complete_witness :
  let r := {| Method := "GET"; Path := "/api/posts"; Header := ∅;
              Query := {[ "event" := ["Reunion"] ]};
              RemoteAddr := "10.0.0.1:5555"; Body := None; Context := ∅ |} in
  let ps := select_posts "Reunion" 50 0 busy_world in
  fst (GetPosts r busy_world) = respondWithJSON StatusOK (JsonPosts ps)
  ∧ length ps = 6%nat
  ∧ ps ≡ₚ matching_posts "Reunion" busy_world.
Proof.
  intros r ps.
  assert (H1 : fst (GetPosts r busy_world) = respondWithJSON StatusOK (JsonPosts ps))
    by (vm_compute; reflexivity).
  split; [exact H1 |]. split; [vm_compute; reflexivity |].
  apply (listing_complete r busy_world ps H1); vm_compute; [reflexivity | discriminate].
Defined.

Lemma merge_sort_head p (l : list Post.t) :
  p ∈ l →
  (∀ q, q ∈ l → q = p ∨ Post.CreatedAt q < Post.CreatedAt p) →
  ∃ rest, merge_sort newer_first l = p :: rest.
Proof.
  intros Hp Hnew.
  pose proof (StronglySorted_merge_sort newer_first l) as Hs.
  pose proof (merge_sort_Permutation newer_first l) as Hperm.
  destruct (merge_sort newer_first l) as [| h rest].
  { rewrite <- Hperm in Hp. by apply elem_of_nil in Hp. }
  exists rest. f_equal.
  apply StronglySorted_cons in Hs as [Hall _]. rewrite Forall_forall in Hall.
  destruct (Hnew h) as [-> | Hlt]; [rewrite <- Hperm; by left | done |].
  rewrite <- Hperm in Hp. apply elem_of_cons in Hp as [-> | Hp]; [done |].
  specialize (Hall p Hp). unfold newer_first in Hall. lia.
Qed.

(** X11. Round trip: after POST /api/posts is answered 201 in a store
    whose posts are all older than the current instant, a listing without
    offset, unfiltered or filtered by the event name of the post as it was
    sent, returns that post first. *)
Theorem post_then_list (r r2 : Request) (w w1 w2 : World) (post : Post.t) :
  CreatePost r w = (respondWithJSON StatusCreated (JsonPost post), w1) →
  (∀ row, row ∈ posts (store w) → Post.CreatedAt (row_post row) < clock w) →
  store w2 = store w1 →
  fst (pop_fault w2) = false →
  Get (Query r2) "event" = "" ∨ Get (Query r2) "event" = Post.EventName post →
  parseOffset (Get (Query r2) "offset") = 0 →
  ∃ rest, fst (GetPosts r2 w2) = respondWithJSON StatusOK (JsonPosts (post :: rest)).
Proof.
  intros Hpost Hold Hst Hp Hev Hoff.
  apply CreatePost_cases in Hpost as (_ & _ & [[_ Hne] | (req & _ & _ & _ & Heq & Hs1)]);
    [done |].
  injection Heq as Heq. simpl in Hs1.
  assert (Hposts : posts (store w2)
                   = posts (store w) ++ [{| row_post := post; ip_hash := stored_ipHash r |}]).
  { rewrite Hst, Hs1, Heq. reflexivity. }
  assert (Hat : Post.CreatedAt post = clock w) by (by rewrite Heq).
  unfold GetPosts, DB_GetPosts, db_call.
  pose proof (pop_fault_store w2) as Hs.
  destruct (pop_fault w2) as [b w0]; simpl in *. subst b.
  rewrite select_posts_eq, Hoff. change (Z.to_nat 0) with 0%nat. rewrite drop_0.
  destruct (merge_sort_head post (matching_posts (Get (Query r2) "event") w0)) as [rest Hrest].
  - apply matching_posts_spec. rewrite Hs, Hposts. split.
    + eexists. split; [apply elem_of_app; right; by left | done].
    + intros Hne. by destruct Hev.
  - intros q [(row & Hin & <-) _]%matching_posts_spec.
    rewrite Hs, Hposts in Hin.
    apply elem_of_app in Hin as [Hin | ->%list_elem_of_singleton]; [| by left].
    right. rewrite Hat. by apply Hold.
  - rewrite Hrest.
    pose proof (parseLimit_range (Get (Query r2) "limit")) as [Hpos _].
    destruct (Z.to_nat (parseLimit (Get (Query r2) "limit"))) as [| n] eqn:Hn; [lia |].
    simpl. eauto.
Qed.

Lemma post_then_list_witness :
  let w := with_clock busy_world (63 * minute) in
  let r := with_header (sample_request "203.0.113.7" " hi ") "X-Forwarded-For"
                       "198.51.100.9" in
  let r2 := {| Method := "GET"; Path := "/api/posts"; Header := ∅;
               Query := {[ "event" := ["Reunion"] ]};
               RemoteAddr := "10.0.0.1:5555"; Body := None; Context := ∅ |} in
  let post := Post.Make 7 "Reunion" " hi " 30 "" "Chicago" (63 * minute) in
  let w1 := snd (CreatePost r w) in
  CreatePost r w = (respondWithJSON StatusCreated (JsonPost post), w1)
  ∧ ∃ rest, fst (GetPosts r2 w1) = respondWithJSON StatusOK (JsonPosts (post :: rest)).
Proof.
  intros w r r2 post w1.
  assert (H1 : CreatePost r w = (respondWithJSON StatusCreated (JsonPost post), w1))
    by (vm_compute; reflexivity).
  split; [exact H1 |].
  apply (post_then_list r r2 w w1 w1 post H1).
  - apply Forall_forall. apply (bool_decide_unpack _). vm_compute. exact I.
  - reflexivity.
  - vm_compute. reflexivity.
  - right. vm_compute. reflexivity.
  - vm_compute. reflexivity.
Defined.

Lemma listing_shape_witness :
  let r := {| Method := "GET"; Path := "/api/posts"; Header := ∅;
              Query := {[ "event" := ["Reunion"]; "limit" := ["2"] ]};
              RemoteAddr := "10.0.0.1:5555"; Body := None; Context := ∅ |} in
  fst (pop_fault busy_world) = false
  ∧ ∃ ps, fst (GetPosts r busy_world) = respondWithJSON StatusOK (JsonPosts ps)
      ∧ Z.of_nat (length ps) ≤ 2
      ∧ StronglySorted newer_first ps.
Proof.
  intros r.
  assert (Hf : fst (pop_fault busy_world) = false) by (vm_compute; reflexivity).
  split; [exact Hf |].
  destruct (proj2 (listing_shape r busy_world) Hf) as (ps & H1 & H2 & H3 & _).
  exists ps. split; [assumption |]. split; [| assumption].
  assert (Hl : parseLimit (Get (Query r) "limit") = 2) by (vm_compute; reflexivity).
  rewrite Hl in H2. exact H2.
Defined.

(** ** Event names *)

Lemma remove_dups_snoc {A} `{EqDecision A} (l : list A) (x : A) :
  remove_dups (l ++ [x]) = filter (λ y, y ≠ x) (remove_dups l) ++ [x].
Proof.
  induction l as [| y l IH]; simpl.
  - destruct (decide_rel elem_of x []) as [Hin |]; [by apply elem_of_nil in Hin | done].
  - destruct (decide (y = x)) as [-> | Hne].
    + destruct (decide_rel elem_of x (l ++ [x])) as [_ | Hn].
      2: { exfalso. apply Hn, elem_of_app. right. by left. }
      rewrite IH. f_equal.
      destruct (decide_rel elem_of x l); [done |].
      by rewrite filter_cons_False by (intros H; by apply H).
    + destruct (decide_rel elem_of y (l ++ [x])) as [Hin | Hnin];
        destruct (decide_rel elem_of y l) as [Hin' | Hnin'].
      * done.
      * exfalso. apply elem_of_app in Hin as [? | ->%list_elem_of_singleton]; done.
      * exfalso. apply Hnin, elem_of_app. by left.
      * rewrite filter_cons_True by done. simpl. by rewrite IH.
Qed.

Lemma first_occurrences_cons {A} `{EqDecision A} (x : A) (l : list A) :
  reverse (remove_dups (reverse (x :: l)))
  = x :: filter (λ y, y ≠ x) (reverse (remove_dups (reverse l))).
Proof.
  rewrite reverse_cons, remove_dups_snoc, reverse_app. simpl.
  by rewrite filter_reverse.
Qed.

Lemma first_occurrences_order (ps : list Post.t) (e1 e2 : string) :
  StronglySorted newer_first ps →
  [e1; e2] `sublist_of` reverse (remove_dups (reverse (map Post.EventName ps))) →
  ∀ p2, p2 ∈ ps → Post.EventName p2 = e2 →
  ∃ p1, p1 ∈ ps ∧ Post.EventName p1 = e1 ∧ Post.CreatedAt p2 ≤ Post.CreatedAt p1.
Proof.
  induction ps as [| p ps IH]; intros Hs Hsub p2 Hp2 He2.
  { by apply elem_of_nil in Hp2. }
  apply StronglySorted_cons in Hs as [Hall Hs]. rewrite Forall_forall in Hall.
  simpl map in Hsub. rewrite first_occurrences_cons in Hsub.
  apply sublist_cons_r in Hsub as [Hsub | (l' & [= He1 <-] & Hsub)].
  - assert (He : e2 ∈ filter (λ y, y ≠ Post.EventName p)
                   (reverse (remove_dups (reverse (map Post.EventName ps))))).
    { apply (sublist_subseteq _ _ Hsub). right. by left. }
    apply list_elem_of_filter in He as [Hne _].
    apply elem_of_cons in Hp2 as [-> | Hp2]; [congruence |].
    destruct (IH Hs) with (p2 := p2) as (p1 & Hin & Hn & Hle); try done.
    { etrans; [exact Hsub | apply sublist_filter]. }
    exists p1. split; [by right | done].
  - exists p. split; [by left |]. split; [done |].
    apply elem_of_cons in Hp2 as [-> | Hp2]; [lia | by apply Hall].
Qed.

Lemma select_events_elem (w : World) (e : string) :
  e ∈ select_events w ↔ ∃ row, row ∈ posts (store w) ∧ Post.EventName (row_post row) = e.
Proof.
  unfold select_events.
  rewrite elem_of_reverse, elem_of_remove_dups, elem_of_reverse.
  change (map Post.EventName ?l) with (Post.EventName <$> l).
  rewrite list_elem_of_fmap. setoid_rewrite merge_sort_Permutation.
  change (map row_post ?l) with (row_post <$> l).
  setoid_rewrite list_elem_of_fmap. split.
  - intros (p & -> & row & -> & Hin). eauto.
  - intros (row & Hin & <-). eauto.
Qed.

(** X12. GET /api/events lists exactly the event names that have a stored
    post, each once; of two names in the list the earlier one has a post at
    least as recent as every post of the later one.  When the store fails
    the reply is 500 "Failed to retrieve events". *)
Theorem events_listing (r : Request) (w : World) :
  (fst (pop_fault w) = true →
   fst (GetEvents r w) = respondWithError StatusInternalServerError "Failed to retrieve events")
  ∧ (fst (pop_fault w) = false →
     ∃ events, fst (GetEvents r w) = respondWithJSON StatusOK (JsonEvents events)
       ∧ NoDup events
       ∧ (∀ e, e ∈ events ↔
               ∃ row, row ∈ posts (store w) ∧ Post.EventName (row_post row) = e)
       ∧ ∀ e1 e2, [e1; e2] `sublist_of` events →
           ∀ row2, row2 ∈ posts (store w) → Post.EventName (row_post row2) = e2 →
           ∃ row1, row1 ∈ posts (store w) ∧ Post.EventName (row_post row1) = e1
                   ∧ Post.CreatedAt (row_post row2) ≤ Post.CreatedAt (row_post row1)).
Proof.
  unfold GetEvents, DB_GetEvents, db_call.
  pose proof (pop_fault_store w) as Hst.
  destruct (pop_fault w) as [[] w0]; simpl in *; split; try done.
  intros _. eexists. split; [reflexivity |]. split; [| split].
  - unfold select_events. rewrite reverse_Permutation. apply NoDup_remove_dups.
  - intros e. rewrite select_events_elem. by rewrite Hst.
  - intros e1 e2 Hsub row2 Hin2 He2. unfold select_events in Hsub.
    destruct (first_occurrences_order _ e1 e2
                (StronglySorted_merge_sort newer_first _) Hsub (row_post row2))
      as (p1 & Hp1 & Hn1 & Hle); [| done |].
    + rewrite merge_sort_Permutation, Hst.
      change (map row_post ?l) with (row_post <$> l). apply list_elem_of_fmap. eauto.
    + rewrite merge_sort_Permutation, Hst in Hp1.
      change (map row_post ?l) with (row_post <$> l) in Hp1.
      apply list_elem_of_fmap in Hp1 as (row1 & -> & Hin1). eauto.
Qed.

Lemma events_listing_witness :
  let r := {| Method := "GET"; Path := "/api/events"; Header := ∅; Query := ∅;
              RemoteAddr := "10.0.0.1:5555"; Body := None; Context := ∅ |} in
  fst (pop_fault busy_world) = false
  ∧ ∃ events, fst (GetEvents r busy_world) = respondWithJSON StatusOK (JsonEvents events)
      ∧ NoDup events.
Proof.
  intros r.
  assert (Hf : fst (pop_fault busy_world) = false) by (vm_compute; reflexivity).
  split; [exact Hf |].
  destruct (proj2 (events_listing r busy_world) Hf) as (events & H1 & H2 & _).
  exists events. split; assumption.
Defined.

(** ** The middleware chain *)

Lemma existsb_allowed (origin : string) (allowedOrigins : list string) :
  existsb (λ allowedOrigin, String.eqb origin allowedOrigin || String.eqb allowedOrigin "*")
          allowedOrigins = true
  ↔ origin ∈ allowedOrigins ∨ "*" ∈ allowedOrigins.
Proof.
  rewrite existsb_exists. setoid_rewrite <- list_elem_of_In. split.
  - intros (x & Hin & [Hx | Hx]%orb_true_iff).
    + apply String.eqb_eq in Hx as <-. by left.
    + apply String.eqb_eq in Hx as <-. by right.
  - intros [Hin | Hin]; eexists; (split; [exact Hin |]).
    + by rewrite String.eqb_refl.
    + by rewrite orb_true_r.
Qed.

(** X13. CORSMiddleware sets its four headers with Allow-Origin "*" for a
    request without Origin or with Origin "null"; with the request's own
    origin when that origin, or "*", is in the allowed list; and sets none
    otherwise.  It never refuses a request: anything but OPTIONS is handled
    by the wrapped handler, allowed origin or not. *)
Theorem cors_decision (next : Handler) (allowedOrigins : list string)
    (r : Request) (w : World) :
  let origin := Get (Header r) "Origin" in
  let reply := CORSMiddleware next allowedOrigins r w in
  let headers := fst (fst reply) in
  (origin = "" ∨ origin = "null" → headers = cors_headers "*")
  ∧ (origin ≠ "" → origin ≠ "null" → origin ∈ allowedOrigins ∨ "*" ∈ allowedOrigins →
     headers = cors_headers origin)
  ∧ (origin ≠ "" → origin ≠ "null" → origin ∉ allowedOrigins → "*" ∉ allowedOrigins →
     headers = ∅)
  ∧ (Method r ≠ "OPTIONS" → snd (fst reply) = fst (next r w) ∧ snd reply = snd (next r w)).
Proof.
  intros origin reply headers. subst headers reply. unfold CORSMiddleware. fold origin.
  pose proof (existsb_allowed origin allowedOrigins) as Hex.
  destruct (existsb _ allowedOrigins) eqn:Hall;
    destruct (String.eqb_spec origin "null") as [Hnull | Hnull];
    destruct (String.eqb_spec origin "") as [Hemp | Hemp];
    destruct (String.eqb_spec (Method r) "OPTIONS") as [HM | HM];
    destruct (next r w) as [resp w']; simpl;
    repeat split; try done; try (intros []; done); try (intros; exfalso; intuition congruence).
  all: try (intros ? ? Hn1 Hn2; exfalso; destruct (proj1 Hex eq_refl); done).
  all: try (intros ? ? Hin; apply Hex in Hin; discriminate).
Qed.

Lemma cors_decision_witness :
  let r := with_header (sample_request "203.0.113.7" "hi") "Origin" "https://evil.example" in
  let reply := CORSMiddleware mux ["https://hndshake.com"] r sample_world in
  fst (fst reply) = ∅ ∧ snd (fst reply) = fst (mux r sample_world).
Proof.
  intros r reply.
  destruct (cors_decision mux ["https://hndshake.com"] r sample_world)
    as (_ & _ & H3 & H4).
  split.
  - apply H3.
    + vm_compute. discriminate.
    + vm_compute. discriminate.
    + apply (bool_decide_unpack _). vm_compute. exact I.
    + apply (bool_decide_unpack _). vm_compute. exact I.
  - apply H4. vm_compute. discriminate.
Defined.

(** X14. Through the whole chain an OPTIONS request is answered 200 with an
    empty body whatever its path, without a call to the store. *)
Theorem preflight_answered (cfg : Config) (rl : RateLimiter) (r : Request) (w : World) :
  Method r = "OPTIONS" →
  let reply := app cfg rl r w in
  snd (fst reply) = plain StatusOK ""
  ∧ store (snd reply) = store w ∧ faults (snd reply) = faults w.
Proof.
  intros HM reply. subst reply. unfold app, LoggingMiddleware, CORSMiddleware.
  rewrite HM. simpl String.eqb. cbv iota.
  repeat case_match; simplify_eq; done.
Qed.

(** X15. Through the whole chain /health answers 200 "OK" to every method
    but POST and OPTIONS, without a call to the store: it says nothing
    about the database. *)
Theorem health_ignores_store (cfg : Config) (rl : RateLimiter) (r : Request) (w : World) :
  Path r = "/health" → Method r ≠ "POST" → Method r ≠ "OPTIONS" →
  let reply := app cfg rl r w in
  snd (fst reply) = plain StatusOK "OK"
  ∧ store (snd reply) = store w ∧ faults (snd reply) = faults w.
Proof.
  intros HP HM HO reply. subst reply.
  unfold app, LoggingMiddleware, CORSMiddleware, Limit, mux.
  rewrite HP.
  destruct (String.eqb_spec (Method r) "OPTIONS") as [| _]; [done |].
  destruct (String.eqb_spec (Method r) "POST") as [| _]; [done |].
  simpl. repeat case_match; simplify_eq; done.
Qed.

Lemma preflight_answered_witness :
  let w := with_faults sample_world [true] in
  let reply := app sample_config (NewRateLimiter 5 60) (bare_request "OPTIONS" "/nowhere") w in
  snd (fst reply) = plain StatusOK "" ∧ faults (snd reply) = [true].
Proof.
  intros w reply.
  destruct (preflight_answered sample_config (NewRateLimiter 5 60)
              (bare_request "OPTIONS" "/nowhere") w eq_refl) as (H1 & _ & H2).
  split; [exact H1 | exact H2].
Defined.

Lemma health_ignores_store_witness :
  let w := with_faults sample_world [true] in
  let reply := app sample_config (NewRateLimiter 5 60) (bare_request "GET" "/health") w in
  snd (fst reply) = plain StatusOK "OK" ∧ faults (snd reply) = [true].
Proof.
  intros w reply.
  destruct (health_ignores_store sample_config (NewRateLimiter 5 60)
              (bare_request "GET" "/health") w eq_refl) as (H1 & _ & H2).
  - vm_compute. discriminate.
  - vm_compute. discriminate.
  - split; [exact H1 | exact H2].
Defined.

(** ** The list of allowed origins *)

Lemma rev_app_app cur a b : String.rev_app cur a +:+ b = String.rev_app cur (a +:+ b).
Proof.
  revert a. induction cur as [| c cur IH]; intros a; simpl; [done |].
  by rewrite IH, app_String.
Qed.

Lemma Split_go_piece cur a sep :
  ¬ occurs sep a → GoStrings.Split_go cur a sep = [String.rev_app cur a].
Proof.
  unfold occurs. revert cur. induction a as [| c a IH]; intros cur Hn; simpl; [done |].
  simpl in Hn. destruct (Ascii.eqb_spec c sep) as [-> | _]; [tauto |].
  rewrite IH by tauto. done.
Qed.

Lemma Split_go_sep cur a rest sep :
  ¬ occurs sep a →
  GoStrings.Split_go cur (a +:+ String sep rest) sep
  = String.rev_app cur a :: GoStrings.Split_go "" rest sep.
Proof.
  unfold occurs. revert cur. induction a as [| c a IH]; intros cur Hn.
  - change ("" +:+ String sep rest) with (String sep rest). simpl.
    by rewrite Ascii.eqb_refl.
  - rewrite app_String. simpl. simpl in Hn.
    destruct (Ascii.eqb_spec c sep) as [-> | _]; [tauto |].
    rewrite IH by tauto. done.
Qed.

Lemma Split_concat pieces sep :
  pieces ≠ [] → Forall (λ p, ¬ occurs sep p) pieces →
  GoStrings.Split (String.concat (String sep "") pieces) sep = pieces.
Proof.
  unfold GoStrings.Split.
  induction pieces as [| p pieces IH]; [done |]. intros _ [Hp Hall]%Forall_cons.
  destruct pieces as [| q pieces].
  - simpl. by rewrite Split_go_piece.
  - change (String.concat (String sep "") (p :: q :: pieces))
      with (p +:+ (String sep "" +:+ String.concat (String sep "") (q :: pieces))).
    rewrite app_String. change ("" +:+ ?s) with s.
    rewrite Split_go_sep by done. simpl String.rev_app. f_equal. by apply IH.
Qed.

(** X16. Round trip: the origins joined by commas are read back one by one,
    each with its surrounding white space removed, provided there is at
    least one and none contains a comma. *)
Theorem parseOrigins_joined (origins : list string) :
  origins ≠ [] → Forall (λ origin, ¬ occurs ","%char origin) origins →
  parseOrigins (String.concat "," origins) = map GoStrings.TrimSpace origins.
Proof.
  intros Hne Hall. unfold parseOrigins. by rewrite Split_concat.
Qed.

Lemma parseOrigins_joined_witness :
  parseOrigins (String.concat "," ["http://localhost:3000"; " https://hndshake.com "; ""])
  = ["http://localhost:3000"; "https://hndshake.com"; ""].
Proof.
  rewrite parseOrigins_joined.
  - vm_compute. reflexivity.
  - discriminate.
  - apply Forall_forall. intros p Hp. unfold occurs.
    rewrite <- list_elem_of_In. revert p Hp. apply Forall_forall.
    apply (bool_decide_unpack _). vm_compute. exact I.
Defined.

(** ** The migration runner: completion and retry *)

Lemma ReadFile_dir f w1 w2 :
  migrations_dir w1 = migrations_dir w2 → fst (ReadFile f w1) = fst (ReadFile f w2).
Proof. unfold ReadFile. simpl. by intros ->. Qed.

(** With a store that answers and files that can be read, the loop of the
    runner completes. *)
Lemma apply_migrations_healthy files : ∀ w,
  Forall (λ b, b = false) (faults w) →
  (∀ f, f ∈ files → is_Some (fst (ReadFile f w))) →
  ∃ w', apply_migrations files w = (Done tt, w').
Proof.
  induction files as [| f rest IH]; intros w Hok Hrd; [by eexists |].
  destruct (apply_migrations (f :: rest) w) as [r w'] eqn:H.
  pose proof (pop_fault_healthy w Hok) as [Hp Hok0].
  pose proof (pop_fault_dir w) as Hd0.
  assert (Hf : is_Some (fst (ReadFile f (snd (pop_fault w))))).
  { rewrite (ReadFile_dir f _ w Hd0). apply Hrd. by left. }
  apply apply_migrations_cons in H. cbv zeta in H.
  match type of H with context [pop_fault (emit ?e1 (emit ?e2 ?x))] =>
    pose proof (pop_fault_healthy (emit e1 (emit e2 x)) Hok0) as [Hp2 Hok2];
    pose proof (pop_fault_dir (emit e1 (emit e2 x))) as Hd2
  end.
  destruct H as [(Hp' & _) | [(_ & _ & H) | [(_ & _ & Hn & _) | [(_ & _ & _ & Hp2' & _)
    | [(sql & _ & _ & _ & _ & Hp3 & _) | (sql & _ & _ & _ & _ & _ & H)]]]]].
  - congruence.
  - destruct (IH (emit (EvLog ("Migration " +:+ version_of f +:+ " already applied, skipping"))
                    (snd (pop_fault w)))) as [w'' Hw'']; [done | |].
    + intros g Hg. rewrite <- (ReadFile_dir g w) by (by rewrite <- Hd0). apply Hrd. by right.
    + exists w''. congruence.
  - rewrite Hn in Hf. by destruct Hf.
  - congruence.
  - match type of Hp3 with context [pop_fault ?x] =>
      destruct (pop_fault_healthy x) as [Hp3' _]; [exact Hok2 | congruence]
    end.
  - match type of H with apply_migrations rest ?x = _ =>
      destruct (IH x) as [w'' Hw'']
    end.
    + simpl. match goal with |- context [pop_fault ?x] =>
        destruct (pop_fault_healthy x) as [_ Hok3]; [exact Hok2 | exact Hok3] end.
    + intros g Hg. rewrite <- (ReadFile_dir g w); [apply Hrd; by right |].
      simpl. rewrite pop_fault_dir. simpl. by rewrite pop_fault_dir.
    + exists w''. congruence.
Qed.

(** X17. After a run of the migration runner that completed, the version
    of every ".sql" file of the directory is recorded; the versions
    recorded before are still there, in front; and nothing else is
    recorded. *)
Theorem completed_run_records_all (w w' : World) :
  runMigrations w = (Done tt, w') →
  (∀ f, f ∈ discovered w → version_of f ∈ schema_migrations (store w'))
  ∧ schema_migrations (store w) `prefix_of` schema_migrations (store w')
  ∧ ∀ v, v ∈ schema_migrations (store w') →
         v ∈ schema_migrations (store w) ∨ ∃ f, f ∈ discovered w ∧ version_of f = v.
Proof.
  intros Hrun. apply runMigrations_run in Hrun
    as (_ & _ & _ & pr & pe & pa & _ & _ & _ & _ & _ & Hsm & Hdone & _).
  specialize (Hdone eq_refl). subst pa. rewrite Hsm. split; [| split].
  - intros f Hf. by apply pending_covers.
  - by eexists.
  - intros v [Hv | Hv]%elem_of_app; [by left | right].
    change (v ∈ version_of <$> pending (schema_migrations (store w)) (discovered w)) in Hv.
    apply list_elem_of_fmap in Hv as (f & -> & [Hf _]%pending_elem). eauto.
Qed.

Lemma completed_run_records_all_witness :
  let w := with_store_versions sample_world ["000_legacy"] in
  let w' := snd (runMigrations w) in
  runMigrations w = (Done tt, w')
  ∧ "002_age_to_integer" ∈ schema_migrations (store w')
  ∧ ["000_legacy"] `prefix_of` schema_migrations (store w').
Proof.
  intros w w'.
  assert (Hrun : runMigrations w = (Done tt, w')) by (vm_compute; reflexivity).
  destruct (completed_run_records_all w w' Hrun) as (H1 & H2 & _).
  split; [exact Hrun |]. split; [| exact H2].
  apply (H1 "002_age_to_integer.sql").
  apply (bool_decide_unpack _). vm_compute. exact I.
Defined.

(** X18. The runner completes whenever the store answers every call, the
    directory can be listed and every ".sql" file in it can be read. *)
Theorem healthy_run_completes (w : World) :
  Forall (λ b, b = false) (faults w) →
  is_Some (migrations_dir w) →
  readable w →
  ∃ w', runMigrations w = (Done tt, w').
Proof.
  intros Hok Hdir Hrd.
  destruct (runMigrations w) as [r w'] eqn:Hrun.
  pose proof (pop_fault_healthy w Hok) as [Hp Hok0].
  apply runMigrations_cases in Hrun
    as [(Hp' & _) | [(_ & Hnone & _) | (_ & _ & w1 & Happ & ->)]].
  - congruence.
  - rewrite Hnone in Hdir. by destruct Hdir.
  - destruct (apply_migrations_healthy (discovered w) (snd (pop_fault w)) Hok0)
      as [w1' Hw1'].
    + intros f Hf. rewrite (ReadFile_dir f _ w (pop_fault_dir w)). by apply Hrd.
    + rewrite Hw1' in Happ. injection Happ as <- <-. by eexists.
Qed.

Lemma healthy_run_completes_witness :
  ∃ w', runMigrations sample_world = (Done tt, w').
Proof.
  apply healthy_run_completes.
  - vm_compute. constructor.
  - by eexists.
  - unfold readable. apply Forall_forall.
    apply (bool_decide_unpack _). vm_compute. exact I.
Defined.

(** X19. A script whose recording failed is executed again: when a run
    ends on "Failed to record migration v", the next run against the store
    it left that completes executes v a second time. *)
Theorem unrecorded_script_runs_again (w w1 w1' w2 : World) (v : string) :
  runMigrations w = (Fatal ("Failed to record migration " +:+ v), w1) →
  store w1' = store w1 →
  migrations_dir w1' = migrations_dir w1 →
  trace w1' = trace w1 →
  runMigrations w1' = (Done tt, w2) →
  ∃ earlier between later,
    executed_versions (trace w2) = earlier ++ v :: between ++ v :: later.
Proof.
  intros Hrun1 Hst Hdir Htr Hrun2.
  apply runMigrations_run in Hrun1
    as (_ & _ & Hd1 & pr & pe & pa & _ & Her & Hr & _ & Hex & Hsm & _ & _ & Hfc).
  destruct (Hfc v eq_refl) as [(f & -> & <-) Hn].
  assert (Hf : f ∈ discovered w).
  { apply (pending_elem (schema_migrations (store w))).
    apply (elem_of_prefix _ _ _ (elem_of_prefix _ _ _ ltac:(apply elem_of_app; right; by left) Her) Hr). }
  apply runMigrations_run in Hrun2
    as (_ & _ & _ & pr2 & pe2 & pa2 & Ha2 & He2 & Hr2 & _ & Hex2 & _ & Hdone & _).
  specialize (Hdone eq_refl). subst pa2.
  destruct (prefix_squeeze _ _ _ _ Ha2 He2 Hr2 eq_refl) as [-> _].
  assert (Hdisc : discovered w1' = discovered w).
  { unfold discovered. by rewrite Hdir, Hd1. }
  rewrite Hdisc, Hst in Hex2.
  destruct (proj1 (elem_of_app _ _ _)
              (pending_covers (schema_migrations (store w1)) (discovered w) f Hf))
    as [? | Hin]; [done |].
  apply list_elem_of_split in Hin as (l1 & l2 & Hsplit).
  rewrite Hex2, Htr, Hex, Hsplit, map_app. simpl map.
  exists (executed_versions (trace w) ++ map version_of pa), l1, l2.
  by rewrite <- !app_assoc.
Qed.

Lemma unrecorded_script_runs_again_witness :
  let w := with_faults sample_world [false; false; false; false; false; false; true] in
  let w1 := snd (runMigrations w) in
  let w2 := snd (runMigrations w1) in
  runMigrations w = (Fatal ("Failed to record migration " +:+ "002_age_to_integer"), w1)
  ∧ runMigrations w1 = (Done tt, w2)
  ∧ ∃ earlier between later,
      executed_versions (trace w2)
      = earlier ++ "002_age_to_integer" :: between ++ "002_age_to_integer" :: later.
Proof.
  intros w w1 w2.
  assert (H1 : runMigrations w
               = (Fatal ("Failed to record migration " +:+ "002_age_to_integer"), w1))
    by (vm_compute; reflexivity).
  assert (H2 : runMigrations w1 = (Done tt, w2)) by (vm_compute; reflexivity).
  split; [exact H1 |]. split; [exact H2 |].
  exact (unrecorded_script_runs_again w w1 w1 w2 _ H1 eq_refl eq_refl eq_refl H2).
Defined.

(** ** The server as a whole *)

Lemma app_eq cfg rl r w :
  let w0 := emit (EvLog (Method r +:+ " " +:+ Path r)) w in
  let done_ := emit (EvLog (Method r +:+ " " +:+ Path r +:+ " - ")) in
  (Method r = "OPTIONS" →
     snd (fst (app cfg rl r w)) = plain StatusOK "" ∧ snd (app cfg rl r w) = done_ w0)
  ∧ (Method r ≠ "OPTIONS" →
     snd (fst (app cfg rl r w)) = fst (Limit rl mux r w0)
     ∧ snd (app cfg rl r w) = done_ (snd (Limit rl mux r w0))).
Proof.
  intros w0 done_. unfold app, LoggingMiddleware, CORSMiddleware. fold w0.
  destruct (String.eqb_spec (Method r) "OPTIONS") as [HM | HM]; split; try done.
  - intros _. repeat case_match; simplify_eq; done.
  - intros _. destruct (Limit rl mux r w0) as [resp w1].
    repeat case_match; simplify_eq; done.
Qed.

(** X20. The server never alters or removes a stored post.  A reply other
    than 201 leaves the store as it was; a 201, which only POST /api/posts
    gets, adds exactly one row, the post of the reply, after the others. *)
Theorem server_append_only (cfg : Config) (rl : RateLimiter) (r : Request) (w : World) :
  let resp := snd (fst (app cfg rl r w)) in
  let w' := snd (app cfg rl r w) in
  posts (store w) `prefix_of` posts (store w')
  ∧ (Status resp ≠ StatusCreated → store w' = store w)
  ∧ (Status resp = StatusCreated →
     Method r = "POST" ∧ Path r = "/api/posts"
     ∧ ∃ row, posts (store w') = posts (store w) ++ [row]
              ∧ Payload_ resp = JsonPost (row_post row)
              ∧ ip_hash row = hashIP (getIP r)).
Proof.
  intros resp w'. subst resp w'.
  destruct (app_eq cfg rl r w) as [Hopt Hother]. cbv zeta in *.
  destruct (decide (Method r = "OPTIONS")) as [HM | HM].
  { destruct (Hopt HM) as [-> ->]. simpl. split; [done |]. split; [done |].
    intros H. discriminate H. }
  destruct (Hother HM) as [-> ->]. clear Hopt Hother. simpl store.
  destruct (Limit rl mux r _) as [resp w1] eqn:HL. simpl fst. simpl snd.
  apply Limit_cases in HL
    as (_ & _ & [[Hs Hne] | (HP & Hpath & _ & req & _ & _ & -> & Hs)]); simpl in Hs.
  - rewrite Hs. done.
  - rewrite Hs. simpl. split; [by eexists |]. split; [done |]. intros _.
    split; [done |]. split; [done |]. eexists. split; [reflexivity |]. done.
Qed.

Lemma server_append_only_witness :
  let r := sample_request "203.0.113.7" "hello" in
  let reply := app sample_config (NewRateLimiter 5 60) r busy_world in
  Status (snd (fst reply)) = StatusTooManyRequests
  ∧ store (snd reply) = store busy_world.
Proof.
  intros r reply.
  assert (H : Status (snd (fst reply)) = StatusTooManyRequests) by (vm_compute; reflexivity).
  split; [exact H |].
  apply (server_append_only sample_config (NewRateLimiter 5 60) r busy_world).
  fold reply. rewrite H. discriminate.
Defined.

(** ** Configured numbers *)

Lemma getEnvInt_present key defaultValue w value :
  environ w !! key = Some value →
  getEnvInt key defaultValue w = default defaultValue (GoStrings.Atoi value).
Proof.
  unfold getEnvInt, Getenv. intros ->. simpl.
  destruct (String.eqb_spec value "") as [-> | _]; [done |].
  by destruct (GoStrings.Atoi value).
Qed.

(** X21. The configured rate limit is taken as it parses, without a check:
    a value that is not an integer gives the default 5, and an integer of
    zero or less is kept, so that the limiter built from it rejects every
    POST the count query answers. *)
Theorem configured_limit_unchecked (w w' : World) (cfg : Config) (rl : RateLimiter)
    (value : string) :
  main_startup w = (Done (cfg, rl), w') →
  effective_environ w !! "RATE_LIMIT_REQUESTS" = Some value →
  (GoStrings.Atoi value = None → requestLimit rl = 5)
  ∧ ∀ n, GoStrings.Atoi value = Some n →
      requestLimit rl = n
      ∧ (n ≤ 0 → ∀ next r w2, Method r = "POST" → fst (pop_fault w2) = false →
           Limit rl next r w2 = (rate_limit_response rl, snd (pop_fault w2))).
Proof.
  intros Hrun Henv.
  assert (Hlim : requestLimit rl = default 5 (GoStrings.Atoi value)).
  { destruct (dotenv_file w) as [vars |] eqn:Hd.
    2: { unfold main_startup in Hrun. rewrite must_bind in Hrun.
         unfold godotenv_Load in Hrun. rewrite Hd in Hrun. discriminate Hrun. }
    rewrite (main_startup_loaded _ _ Hd), proc_bind_eq in Hrun.
    unfold read_config in Hrun.
    destruct (String.eqb _ "") in Hrun; [discriminate Hrun |].
    rewrite must_bind, NewDB_eq in Hrun. cbv zeta in Hrun.
    destruct (fst (pop_fault _)) in Hrun; [discriminate Hrun |].
    injection Hrun as <- <- _. simpl.
    by apply getEnvInt_present. }
  split; [intros Hnone; by rewrite Hlim, Hnone |].
  intros n Hn. rewrite Hn in Hlim. simpl in Hlim. split; [done |].
  intros Hle next r w2 HM Hp.
  rewrite (Limit_post _ _ _ _ HM), count_query_cases, Hp.
  pose proof (post_count_nonneg (hashIP (getIP r)) (windowMinutes rl) (snd (pop_fault w2))).
  by destruct (Z.leb_spec (requestLimit rl)
                 (post_count (hashIP (getIP r)) (windowMinutes rl) (snd (pop_fault w2))));
    [| lia].
Qed.

Lemma configured_limit_unchecked_witness :
  let w := with_environ sample_world
             {[ "DATABASE_URL" := "postgres://localhost/hndshake";
                "RATE_LIMIT_REQUESTS" := "-3" ]} in
  let cfg := {| databaseURL := "postgres://localhost/hndshake"; port := "8080";
                allowedOrigins := "http://localhost:3000";
                rateLimitRequests := -3; rateLimitWindowMinutes := 60 |} in
  let rl := NewRateLimiter (-3) 60 in
  let r := sample_request "203.0.113.7" "hello" in
  main_startup w = (Done (cfg, rl), snd (main_startup w))
  ∧ Limit rl mux r sample_world = (rate_limit_response rl, snd (pop_fault sample_world)).
Proof.
  intros w cfg rl r.
  assert (Hrun : main_startup w = (Done (cfg, rl), snd (main_startup w)))
    by (vm_compute; reflexivity).
  assert (Henv : effective_environ w !! "RATE_LIMIT_REQUESTS" = Some "-3")
    by (vm_compute; reflexivity).
  split; [exact Hrun |].
  destruct (configured_limit_unchecked w _ cfg rl "-3" Hrun Henv) as [_ H].
  destruct (H (-3)) as [_ Hrej]; [vm_compute; reflexivity |].
  apply Hrej; [lia | reflexivity | reflexivity].
Defined.

(** ** Paging *)

(** With pairwise different timestamps there is one newest-first order. *)
Lemma newest_first_unique (l1 : list Post.t) : ∀ l2,
  NoDup (map Post.CreatedAt l1) → l1 ≡ₚ l2 →
  StronglySorted newer_first l1 → StronglySorted newer_first l2 → l1 = l2.
Proof.
  induction l1 as [| x l1 IH]; intros l2 Hnd Hperm Hs1 Hs2.
  { by apply Permutation_nil in Hperm. }
  destruct l2 as [| y l2]; [by apply Permutation_sym, Permutation_nil in Hperm |].
  apply NoDup_cons in Hnd as [Hx Hnd].
  apply StronglySorted_cons in Hs1 as [Hall1 Hs1].
  apply StronglySorted_cons in Hs2 as [Hall2 Hs2].
  rewrite Forall_forall in Hall1, Hall2.
  assert (Hxy : x = y).
  { assert (Hy : y ∈ x :: l1) by (rewrite Hperm; by left).
    assert (Hx' : x ∈ y :: l2) by (rewrite <- Hperm; by left).
    apply elem_of_cons in Hy as [-> | Hy]; [done |].
    apply elem_of_cons in Hx' as [-> | Hx']; [done |].
    specialize (Hall1 y Hy). specialize (Hall2 x Hx'). unfold newer_first in *.
    exfalso. apply Hx.
    replace (Post.CreatedAt x) with (Post.CreatedAt y) by lia.
    change (Post.CreatedAt y ∈ Post.CreatedAt <$> l1). apply list_elem_of_fmap. eauto. }
  subst y. f_equal. apply IH; try done. by apply (Permutation_cons_inv (a := x)).
Qed.

(** X22. When the matching posts have pairwise different timestamps,
    consecutive pages tile the listing: with the store unchanged, whatever
    newest-first order of the matching posts the store answers with, the
    page of [limit] posts from [offset] and the page from [offset + limit]
    are its consecutive slices, and together the slice of twice the size
    from [offset]; paging shows every matching post once, with no gap and
    no overlap. *)
Theorem pages_tile (r1 r2 : Request) (w1 w2 : World) (ps1 ps2 : list Post.t) :
  let eventFilter := Get (Query r1) "event" in
  let limit := parseLimit (Get (Query r1) "limit") in
  let offset := parseOffset (Get (Query r1) "offset") in
  NoDup (map Post.CreatedAt (matching_posts eventFilter w1)) →
  store w2 = store w1 →
  Get (Query r2) "event" = eventFilter →
  parseLimit (Get (Query r2) "limit") = limit →
  parseOffset (Get (Query r2) "offset") = offset + limit →
  fst (GetPosts r1 w1) = respondWithJSON StatusOK (JsonPosts ps1) →
  fst (GetPosts r2 w2) = respondWithJSON StatusOK (JsonPosts ps2) →
  ∀ listing,
    listing ≡ₚ matching_posts eventFilter w1 → StronglySorted newer_first listing →
    ps1 = take (Z.to_nat limit) (drop (Z.to_nat offset) listing)
    ∧ ps2 = take (Z.to_nat limit) (drop (Z.to_nat (offset + limit)) listing)
    ∧ ps1 ++ ps2 = take (Z.to_nat (limit + limit)) (drop (Z.to_nat offset) listing).
Proof.
  intros eventFilter limit offset Hnd Hst Hev Hlim Hoff.
  unfold GetPosts, DB_GetPosts, db_call. rewrite Hev, Hlim, Hoff.
  fold eventFilter limit offset.
  pose proof (pop_fault_store w1) as Hs1. pose proof (pop_fault_store w2) as Hs2.
  destruct (pop_fault w1) as [[] w10]; simpl in *; [discriminate |].
  destruct (pop_fault w2) as [[] w20]; simpl in *; [discriminate |].
  intros [= <-] [= <-] listing Hperm Hsorted. rewrite !select_posts_eq.
  assert (Hm : ∀ w, store w = store w1 →
                    matching_posts eventFilter w = matching_posts eventFilter w1).
  { intros w Hw. unfold matching_posts. by rewrite Hw. }
  rewrite (Hm w10 Hs1), (Hm w20) by congruence.
  assert (Hl : merge_sort newer_first (matching_posts eventFilter w1) = listing).
  { symmetry. apply newest_first_unique.
    - by rewrite Hperm.
    - by rewrite merge_sort_Permutation.
    - done.
    - apply StronglySorted_merge_sort; apply _. }
  rewrite Hl. split; [done |]. split; [done |].
  pose proof (parseLimit_range (Get (Query r1) "limit")) as [Hpos _].
  pose proof (parseOffset_range (Get (Query r1) "offset")) as Hnn.
  fold limit in Hpos. fold offset in Hnn.
  rewrite !Z2Nat.inj_add by lia.
  by rewrite <- drop_drop, take_take_drop.
Qed.

Lemma pages_tile_witness :
  let page offset := {| Method := "GET"; Path := "/api/posts"; Header := ∅;
                        Query := {[ "limit" := ["2"]; "offset" := [offset] ]};
                        RemoteAddr := "10.0.0.1:5555"; Body := None; Context := ∅ |} in
  let ps1 := select_posts "" 2 1 busy_world in
  let ps2 := select_posts "" 2 3 busy_world in
  let listing := merge_sort newer_first (matching_posts "" busy_world) in
  NoDup (map Post.CreatedAt (matching_posts "" busy_world))
  ∧ fst (GetPosts (page "1") busy_world) = respondWithJSON StatusOK (JsonPosts ps1)
  ∧ fst (GetPosts (page "3") busy_world) = respondWithJSON StatusOK (JsonPosts ps2)
  ∧ ps1 ++ ps2 = take 4 (drop 1 listing)
  ∧ length (ps1 ++ ps2) = 4%nat.
Proof.
  intros page ps1 ps2 listing.
  assert (Hnd : NoDup (map Post.CreatedAt (matching_posts "" busy_world))).
  { apply (bool_decide_unpack _). vm_compute. exact I. }
  assert (H1 : fst (GetPosts (page "1") busy_world)
               = respondWithJSON StatusOK (JsonPosts ps1)) by (vm_compute; reflexivity).
  assert (H2 : fst (GetPosts (page "3") busy_world)
               = respondWithJSON StatusOK (JsonPosts ps2)) by (vm_compute; reflexivity).
  split; [exact Hnd |]. split; [exact H1 |]. split; [exact H2 |].
  split; [| vm_compute; reflexivity].
  destruct (pages_tile (page "1") (page "3") busy_world busy_world ps1 ps2) with listing
    as (_ & _ & Htile).
  - exact Hnd.
  - reflexivity.
  - reflexivity.
  - vm_compute. reflexivity.
  - vm_compute. reflexivity.
  - exact H1.
  - exact H2.
  - apply merge_sort_Permutation.
  - apply StronglySorted_merge_sort; apply _.
  - etrans; [exact Htile |]. vm_compute. reflexivity.
Defined.
